(** * Room, player, team and turn coordination of the game server

    A shallow embedding of the four manager classes of the server
    ([PlayerManager], [RoomManager], [TeamManager], [TurnManager]) and the
    properties of them that the specification states.

    Conventions of the embedding.
    - A JavaScript object that is mutated in place is a record that the
      function takes and gives back; every function returns the state it
      leaves behind, also when it throws.
    - [playerManager.players] and [roomManager.rooms] are [Map]s whose order is
      never observed by the code below: they are [gmap]s over the string keys.
      [room.players] is a [Map] whose insertion order is observed (host
      transfer takes its first value): it is an insertion-ordered association
      list, [JsMap.t].
    - Arrays ([room.teams], [team.players]) are lists; an array element
      updated in place is a list updated by index.
    - Counters and sizes are natural numbers.  The turn counter is taken as
      unbounded (the code increments a JavaScript number).
    - The external generators ([nanoid], [generateRoomCode], [Date.now],
      [Math.random]) are inputs of the functions that call them.
    - A player object is shared by the registry and by the member map of its
      room.  Through the member map the managers read only [id] and
      [socketId], which nothing writes after [createPlayer]; they read and
      write the mutable fields ([teamId], [roomId], ...) through the
      registry.  So the member map holds the record as it was when the
      player joined, and the registry holds the live record. *)

From stdpp Require Import gmap strings list fin_maps relations pretty sorting.

Open Scope string_scope.
Open Scope nat_scope.
Open Scope list_scope.

(** ** Completions *)

(** Dereferencing [undefined] raises a [TypeError]; it is the only exception
    the managers can raise. *)
Inductive JsError : Type := TypeError.

(** How a call ends: it returns a value or it throws. *)
Inductive completion (A : Type) : Type :=
| Normal (a : A)
| Throw (e : JsError).
Arguments Normal {A} a.
Arguments Throw {A} e.

(** ** Data model *)

Module Player.
Record t : Type := mk {
  id : string;
  socketId : string;
  username : string;
  teamId : option nat;
  isConnected : bool;
  connectedAt : nat;
  roomId : option string
}.

Definition with_teamId (v : option nat) (p : t) : t :=
  mk (id p) (socketId p) (username p) v (isConnected p) (connectedAt p) (roomId p).
Definition with_roomId (v : option string) (p : t) : t :=
  mk (id p) (socketId p) (username p) (teamId p) (isConnected p) (connectedAt p) v.
Definition with_isConnected (v : bool) (p : t) : t :=
  mk (id p) (socketId p) (username p) (teamId p) v (connectedAt p) (roomId p).
Definition with_username (v : string) (p : t) : t :=
  mk (id p) (socketId p) v (teamId p) (isConnected p) (connectedAt p) (roomId p).
End Player.

Module Team.
Record t : Type := mk {
  id : nat;
  name : string;
  players : list string;
  score : nat
}.

Definition with_players (v : list string) (tm : t) : t :=
  mk (id tm) (name tm) v (score tm).

Definition size (tm : t) : nat := length (players tm).
End Team.

(** [Map] with string keys whose iteration order is insertion order.  [set] on
    a key already present keeps the key's position; [delete] removes the
    entry.  Keys are pairwise distinct in every map built from [empty] by
    [set] and [delete] ([wf]). *)
Module JsMap.
Section JsMap.
Context {V : Type}.

Definition t : Type := list (string * V).

Definition empty : t := [].

Definition keys (m : t) : list string := fmap fst m.
Definition values (m : t) : list V := fmap snd m.

Definition wf (m : t) : Prop := NoDup (keys m).

Fixpoint get (k : string) (m : t) : option V :=
  match m with
  | [] => None
  | (k', v) :: m' => if decide (k' = k) then Some v else get k m'
  end.

Definition has (k : string) (m : t) : bool :=
  match get k m with Some _ => true | None => false end.

Fixpoint set (k : string) (v : V) (m : t) : t :=
  match m with
  | [] => [(k, v)]
  | (k', v') :: m' =>
      if decide (k' = k) then (k, v) :: m' else (k', v') :: set k v m'
  end.

Fixpoint delete (k : string) (m : t) : t :=
  match m with
  | [] => []
  | (k', v') :: m' =>
      if decide (k' = k) then m' else (k', v') :: delete k m'
  end.

Definition size (m : t) : nat := length m.
End JsMap.
Arguments t : clear implicits.
End JsMap.

Module Room.
(** The [gameState] field is an empty placeholder object that no manager
    reads or writes; it is left out. *)
Record t : Type := mk {
  id : string;
  hostSocketId : string;
  players : JsMap.t Player.t;
  teams : list Team.t;
  currentTurn : nat;
  gameStarted : bool;
  turnLocked : bool;
  createdAt : nat
}.

Definition with_hostSocketId (v : string) (r : t) : t :=
  mk (id r) v (players r) (teams r) (currentTurn r) (gameStarted r)
     (turnLocked r) (createdAt r).
Definition with_players (v : JsMap.t Player.t) (r : t) : t :=
  mk (id r) (hostSocketId r) v (teams r) (currentTurn r) (gameStarted r)
     (turnLocked r) (createdAt r).
Definition with_teams (v : list Team.t) (r : t) : t :=
  mk (id r) (hostSocketId r) (players r) v (currentTurn r) (gameStarted r)
     (turnLocked r) (createdAt r).
Definition with_currentTurn (v : nat) (r : t) : t :=
  mk (id r) (hostSocketId r) (players r) (teams r) v (gameStarted r)
     (turnLocked r) (createdAt r).
Definition with_gameStarted (v : bool) (r : t) : t :=
  mk (id r) (hostSocketId r) (players r) (teams r) (currentTurn r) v
     (turnLocked r) (createdAt r).
Definition with_turnLocked (v : bool) (r : t) : t :=
  mk (id r) (hostSocketId r) (players r) (teams r) (currentTurn r)
     (gameStarted r) v (createdAt r).
End Room.

(** config.js *)
Module CONFIG.
Definition ROOM_CODE_LENGTH : nat := 6.
Definition MAX_PLAYERS_PER_ROOM : nat := 20.
Definition MIN_PLAYERS_TO_START : nat := 2.
Definition DEFAULT_NUM_TEAMS : nat := 2.
End CONFIG.

(** ** PlayerManager *)

(** The registry [playerManager.players : Map<socketId, Player>]. *)
Abbreviation Registry := (gmap string Player.t).

Module PlayerManager.

(** [username || `Player-${nanoid().substring(0, 4)}`]: [null] and the empty
    string are falsy. *)
Definition usernameOrDefault (username : option string) (suffixSource : string)
  : string :=
  let generated := "Player-" +:+ String.substring 0 4 suffixSource in
  match username with
  | Some u => if decide (u = "") then generated else u
  | None => generated
  end.

(** [createPlayer(socketId, username = null)].  [newId] is what the first
    call of [nanoid()] returns, [suffixSource] what the second one returns
    (made only when no username is given) and [now] what [Date.now()]
    returns. *)
Definition createPlayer (newId suffixSource : string) (now : nat)
    (players : Registry) (socketId : string) (username : option string)
  : Registry * Player.t :=
  let player :=
    Player.mk newId socketId (usernameOrDefault username suffixSource)
              None true now None in
  (<[socketId := player]> players, player).

(** [getPlayer(socketId)]: [None] is [null]. *)
Definition getPlayer (players : Registry) (socketId : string)
  : option Player.t :=
  players !! socketId.

Definition setPlayerRoom (players : Registry) (socketId : string)
    (roomId : option string) : Registry :=
  match getPlayer players socketId with
  | Some player => <[socketId := Player.with_roomId roomId player]> players
  | None => players
  end.

Definition setPlayerTeam (players : Registry) (socketId : string)
    (teamId : option nat) : Registry :=
  match getPlayer players socketId with
  | Some player => <[socketId := Player.with_teamId teamId player]> players
  | None => players
  end.

Definition disconnectPlayer (players : Registry) (socketId : string)
  : Registry :=
  match getPlayer players socketId with
  | Some player => <[socketId := Player.with_isConnected false player]> players
  | None => players
  end.

Definition removePlayer (players : Registry) (socketId : string) : Registry :=
  match getPlayer players socketId with
  | Some _ => delete socketId players
  | None => players
  end.

Definition setPlayerUsername (players : Registry) (socketId : string)
    (username : string) : Registry :=
  match getPlayer players socketId with
  | Some player => <[socketId := Player.with_username username player]> players
  | None => players
  end.

(** The four field updates of a registered player. *)
Inductive Update : Type :=
| SetRoom (roomId : option string)
| SetTeam (teamId : option nat)
| Disconnect
| SetUsername (username : string).

Definition applyUpdate (update : Update) (players : Registry)
    (socketId : string) : Registry :=
  match update with
  | SetRoom roomId => setPlayerRoom players socketId roomId
  | SetTeam teamId => setPlayerTeam players socketId teamId
  | Disconnect => disconnectPlayer players socketId
  | SetUsername username => setPlayerUsername players socketId username
  end.

(** What an update does to the record it finds. *)
Definition updated (update : Update) (player : Player.t) : Player.t :=
  match update with
  | SetRoom roomId => Player.with_roomId roomId player
  | SetTeam teamId => Player.with_teamId teamId player
  | Disconnect => Player.with_isConnected false player
  | SetUsername username => Player.with_username username player
  end.

(** [getPlayerCount()]: the number of entries whose player is connected; the
    order of the entries does not matter for a count. *)
Definition getPlayerCount (players : Registry) : nat :=
  size (filter (λ entry, Player.isConnected entry.2 = true) players).

End PlayerManager.

(** ** TurnManager *)

Module TurnManager.

(** Result of [validateTurn]: [{ valid: true, teamId }] or
    [{ valid: false, message }]. *)
Inductive Validation : Type :=
| Valid (teamId : nat)
| Invalid (message : string).

(** Result of [advanceTurn]: [{ success: true, team, turnNumber }] or
    [{ success: false, message }]. *)
Inductive AdvanceResult : Type :=
| Advanced (team : Team.t) (turnNumber : nat)
| NotAdvanced (message : string).

Record TurnInfo : Type := mkTurnInfo {
  info_currentTurn : nat;
  info_currentTeamId : option nat;
  info_currentTeamName : option string;
  info_turnLocked : bool;
  info_totalTeams : nat
}.

Definition initializeTurns (room : Room.t) : Room.t :=
  Room.with_turnLocked false (Room.with_currentTurn 0 room).

Definition getCurrentTeam (room : Room.t) : option Team.t :=
  if decide (length (Room.teams room) = 0) then None
  else
    let teamIndex := Room.currentTurn room mod length (Room.teams room) in
    Room.teams room !! teamIndex.

Definition getCurrentTeamId (room : Room.t) : option nat :=
  match getCurrentTeam room with
  | Some team => Some (Team.id team)
  | None => None
  end.

Definition validateTurn (players : Registry) (room : Room.t)
    (socketId : string) : Validation :=
  if negb (Room.gameStarted room) then Invalid "Game has not started"
  else if Room.turnLocked room then Invalid "Turn is locked, please wait"
  else
    match getCurrentTeam room with
    | None => Invalid "No teams configured"
    | Some currentTeam =>
        match PlayerManager.getPlayer players socketId with
        | None => Invalid "Player not found"
        | Some player =>
            if decide (Player.teamId player ≠ Some (Team.id currentTeam))
            then Invalid ("Not your turn (waiting for "
                            +:+ Team.name currentTeam +:+ ")")
            else Valid (Team.id currentTeam)
        end
    end.

Definition lockTurn (room : Room.t) : Room.t :=
  Room.with_turnLocked true room.

Definition unlockTurn (room : Room.t) : Room.t :=
  Room.with_turnLocked false room.

(** [advanceTurn] increments the counter and unlocks before it reads
    [newTeam.name]; with an empty team list that read throws, after the
    room has been changed. *)
Definition advanceTurn (room : Room.t) : Room.t * completion AdvanceResult :=
  if negb (Room.gameStarted room)
  then (room, Normal (NotAdvanced "Game has not started"))
  else
    let room' :=
      Room.with_turnLocked false
        (Room.with_currentTurn (S (Room.currentTurn room)) room) in
    match getCurrentTeam room' with
    | Some newTeam =>
        (room', Normal (Advanced newTeam (Room.currentTurn room')))
    | None => (room', Throw TypeError)
    end.

(** [teams.findIndex(t => t.id === teamId)]: [None] is [-1]. *)
Definition findIndex (teamId : nat) (teams : list Team.t) : option nat :=
  fst <$> list_find (λ t, Team.id t = teamId) teams.

Definition setTurn (room : Room.t) (teamId : nat) : Room.t :=
  match findIndex teamId (Room.teams room) with
  | Some teamIndex =>
      Room.with_turnLocked false (Room.with_currentTurn teamIndex room)
  | None => room
  end.

Definition getTurnInfo (room : Room.t) : TurnInfo :=
  let currentTeam := getCurrentTeam room in
  mkTurnInfo (Room.currentTurn room)
             (Team.id <$> currentTeam)
             (Team.name <$> currentTeam)
             (Room.turnLocked room)
             (length (Room.teams room)).

Definition isPlayerTurn (players : Registry) (room : Room.t)
    (socketId : string) : bool :=
  match validateTurn players room socketId with
  | Valid _ => true
  | Invalid _ => false
  end.

Definition getActivePlayerIds (room : Room.t) : list string :=
  match getCurrentTeam room with
  | Some currentTeam => Team.players currentTeam
  | None => []
  end.

Definition resetTurns (room : Room.t) : Room.t :=
  Room.with_turnLocked false (Room.with_currentTurn 0 room).

(** The operations of the turn coordinator that change a room. *)
Inductive Op : Type :=
| OpInitializeTurns
| OpLockTurn
| OpUnlockTurn
| OpAdvanceTurn
| OpSetTurn (teamId : nat)
| OpResetTurns.

Definition apply (op : Op) (room : Room.t) : Room.t :=
  match op with
  | OpInitializeTurns => initializeTurns room
  | OpLockTurn => lockTurn room
  | OpUnlockTurn => unlockTurn room
  | OpAdvanceTurn => fst (advanceTurn room)
  | OpSetTurn teamId => setTurn room teamId
  | OpResetTurns => resetTurns room
  end.

(** [advanceTurn] applied [n] times, the room threaded through. *)
Definition advanceTurns (n : nat) (room : Room.t) : Room.t :=
  Nat.iter n (λ r, fst (advanceTurn r)) room.

End TurnManager.

(** ** TeamManager *)

Module TeamManager.

Definition teamNames : list string :=
  ["Red"; "Blue"; "Green"; "Yellow"; "Purple"; "Orange"].

Definition createTeams (numTeams : nat) : list Team.t :=
  (λ i, Team.mk i (default ("Team " +:+ pretty (i + 1)) (teamNames !! i)) [] 0)
    <$> seq 0 numTeams.

(** [[a[i], a[j]] = [a[j], a[i]]]: both elements are read, then [a[i]] and
    [a[j]] are written in that order. *)
Definition swap {A} (i j : nat) (a : list A) : list A :=
  match a !! i, a !! j with
  | Some x, Some y => <[j := x]> (<[i := y]> a)
  | _, _ => a
  end.

(** The loop of [shuffleArray], from index [i] down to 1.  [rnd i] stands
    for the value of [Math.random()] drawn at index [i]:
    [Math.floor(Math.random() * (i + 1))] is an integer between 0 and [i],
    here [rnd i mod (i + 1)]; every such integer is [rnd i] for some
    [rnd]. *)
Fixpoint shuffleFrom {A} (rnd : nat → nat) (i : nat) (shuffled : list A)
  : list A :=
  match i with
  | 0 => shuffled
  | S i' =>
      let j := rnd i mod (i + 1) in
      shuffleFrom rnd i' (swap i j shuffled)
  end.

Definition shuffleArray {A} (rnd : nat → nat) (array : list A) : list A :=
  shuffleFrom rnd (length array - 1) array.

(** [index % teams.length]: [None] is [NaN]. *)
Definition jsMod (a b : nat) : option nat :=
  if decide (b = 0) then None else Some (a mod b).

(** The body of [shuffledPlayers.forEach((player, index) => ...)], from
    [index] on.  [teams[NaN]] is [undefined], whose [players] cannot be
    read. *)
Fixpoint distribute (index : nat) (shuffledPlayers : list Player.t)
    (teams : list Team.t) (registry : Registry)
  : list Team.t * Registry * completion unit :=
  match shuffledPlayers with
  | [] => (teams, registry, Normal ())
  | player :: rest =>
      match jsMod index (length teams) with
      | None => (teams, registry, Throw TypeError)
      | Some teamIndex =>
          match teams !! teamIndex with
          | None => (teams, registry, Throw TypeError)
          | Some team =>
              let team' :=
                Team.with_players
                  (Team.players team ++ [Player.socketId player]) team in
              distribute (S index) rest
                (<[teamIndex := team']> teams)
                (PlayerManager.setPlayerTeam registry
                   (Player.socketId player) (Some (Team.id team)))
          end
      end
  end.

(** [assignPlayersToTeams(playersMap, teams)].  The array it returns is
    [teams] itself, the first component of the result. *)
Definition assignPlayersToTeams (rnd : nat → nat)
    (playersMap : JsMap.t Player.t) (teams : list Team.t)
    (registry : Registry)
  : list Team.t * Registry * completion unit :=
  let players := JsMap.values playersMap in
  let shuffledPlayers := shuffleArray rnd players in
  let cleared := Team.with_players [] <$> teams in
  distribute 0 shuffledPlayers cleared registry.

(** [Array.prototype.sort] is stable, so with a comparator [key a - key b]
    its result is the one of any stable sort by [key]; this is insertion
    sort, which puts an element before the first later element whose key
    is not smaller. *)
Fixpoint insertBy {A} (key : A → nat) (x : A) (l : list A) : list A :=
  match l with
  | [] => [x]
  | y :: l' =>
      if decide (key x ≤ key y) then x :: y :: l' else y :: insertBy key x l'
  end.

Definition stableSortBy {A} (key : A → nat) (l : list A) : list A :=
  foldr (insertBy key) [] l.

(** The elements of [teams] with their positions: a team object is
    identified by its position in [teams]. *)
Definition indexed (teams : list Team.t) : list (nat * Team.t) :=
  imap (λ i team, (i, team)) teams.

(** [players.pop()] on a non-empty array: what is left and the element
    removed. *)
Definition pop (players : list string) : option (list string * string) :=
  match last players with
  | Some p => Some (removelast players, p)
  | None => None
  end.

(** What one call of [balanceTeams] does before it returns or calls
    itself. *)
Inductive Move : Type :=
| NoTeams
| Balanced
| Moved (teams' : list Team.t) (playerToMove : string) (toTeamId : nat).

(** The body of [balanceTeams(teams)] up to its recursive call.
    [sortedTeams[0]] is [undefined] for an empty team list, and reading its
    [players] throws ([NoTeams]).  [pop] gives [None] only on an empty
    array, which the guard before it excludes (see [nextMove_Balanced]). *)
Definition nextMove (teams : list Team.t) : Move :=
  let sortedTeams := stableSortBy (λ it, Team.size it.2) (indexed teams) in
  match head sortedTeams, last sortedTeams with
  | Some (smallestIndex, smallestTeam), Some (largestIndex, largestTeam) =>
      let minSize := Team.size smallestTeam in
      let maxSize := Team.size largestTeam in
      if decide (1 < maxSize - minSize) then
        if decide (Team.size smallestTeam + 1 < Team.size largestTeam) then
          match pop (Team.players largestTeam) with
          | Some (remaining, playerToMove) =>
              let teams1 :=
                <[largestIndex := Team.with_players remaining largestTeam]>
                  teams in
              let teams2 :=
                <[smallestIndex :=
                    Team.with_players
                      (Team.players smallestTeam ++ [playerToMove])
                      smallestTeam]> teams1 in
              Moved teams2 playerToMove (Team.id smallestTeam)
          | None => Balanced
          end
        else Balanced
      else Balanced
  | _, _ => NoTeams
  end.

(** [balanceTeams(teams)]; [fuel] bounds the depth of the recursion and
    [None] says that it was not enough.  The array it returns is [teams]
    itself, the first component of the result. *)
Fixpoint balanceTeams (fuel : nat) (teams : list Team.t) (registry : Registry)
  : option (list Team.t * Registry * completion unit) :=
  match fuel with
  | 0 => None
  | S fuel' =>
      match nextMove teams with
      | NoTeams => Some (teams, registry, Throw TypeError)
      | Balanced => Some (teams, registry, Normal ())
      | Moved teams' playerToMove toTeamId =>
          balanceTeams fuel' teams'
            (PlayerManager.setPlayerTeam registry playerToMove
               (Some toTeamId))
      end
  end.

(** The number of moves [balanceTeams] makes: its recursive calls. *)
Fixpoint balanceMoves (fuel : nat) (teams : list Team.t) : option nat :=
  match fuel with
  | 0 => None
  | S fuel' =>
      match nextMove teams with
      | NoTeams | Balanced => Some 0
      | Moved teams' _ _ => S <$> balanceMoves fuel' teams'
      end
  end.


Definition getTeamById (teams : list Team.t) (teamId : nat) : option Team.t :=
  snd <$> list_find (λ team, Team.id team = teamId) teams.

(** [players.indexOf(socketId)]: [None] is [-1]. *)
Definition indexOf (socketId : string) (players : list string) : option nat :=
  fst <$> list_find (λ p, p = socketId) players.

(** [const index = team.players.indexOf(socketId);
     if (index > -1) team.players.splice(index, 1)] *)
Definition removeMember (socketId : string) (team : Team.t) : Team.t :=
  match indexOf socketId (Team.players team) with
  | Some index => Team.with_players (delete index (Team.players team)) team
  | None => team
  end.



Definition teamSizes (teams : list Team.t) : list nat :=
  Team.size <$> teams.

(** [Math.max(...sizes)] and [Math.min(...sizes)] of a non-empty list. *)
Definition maxSize (sizes : list nat) : nat := max_list sizes.
Definition minSize (sizes : list nat) : nat :=
  match sizes with
  | [] => 0
  | n :: ns => foldr Nat.min n ns
  end.

(** The size gap of a team list. *)
Definition sizeGap (teams : list Team.t) : nat :=
  maxSize (teamSizes teams) - minSize (teamSizes teams).

(** The measure that every move lowers: the sum of the squared sizes. *)
Definition sumSquares (teams : list Team.t) : nat :=
  sum_list_with (λ team, Team.size team * Team.size team) teams.

(** The connection ids of all teams, team after team. *)
Definition allMembers (teams : list Team.t) : list string :=
  concat (Team.players <$> teams).

(** The size of team [i] of [T] teams after [n] players were dealt out one by
    one to the teams [0, 1, ..., T - 1, 0, 1, ...]. *)
Definition roundRobinSize (T n i : nat) : nat :=
  n / T + (if decide (i < n mod T) then 1 else 0).

(** The registry names for every member of a team that team's id. *)
Definition recorded (teams : list Team.t) (registry : Registry) : Prop :=
  ∀ team socketId player,
    team ∈ teams →
    socketId ∈ Team.players team →
    PlayerManager.getPlayer registry socketId = Some player →
    Player.teamId player = Some (Team.id team).

(** Result of [getTeamStats]. *)
Record TeamStats : Type := mkTeamStats {
  totalTeams : nat;
  stats_teamSizes : list nat;
  isBalanced : bool
}.

(** [getTeamStats(teams)].  [Math.max()] of no argument is [-Infinity] and
    [Math.min()] is [Infinity], so that the difference is [-Infinity], which
    is below 1: an empty team list counts as balanced. *)
Definition getTeamStats (teams : list Team.t) : TeamStats :=
  mkTeamStats (length teams) (teamSizes teams)
    (match teamSizes teams with
     | [] => true
     | sizes => bool_decide (maxSize sizes - minSize sizes ≤ 1)
     end).

End TeamManager.

(** ** RoomManager *)

(** The store [roomManager.rooms : Map<roomId, Room>]. *)
Abbreviation Rooms := (gmap string Room.t).

Module RoomManager.

(** Result of [createRoom].  [codes] lists what the successive calls of
    [generateRoomCode()] return; [StillRetrying] says that every code of
    the list was taken, so that the call is still retrying when the list
    ends. *)
Inductive CreateResult : Type :=
| Created (room : Room.t) (rooms : Rooms) (rest : list string)
| StillRetrying.

Fixpoint createRoom (codes : list string) (now : nat) (rooms : Rooms)
    (hostSocketId : string) : CreateResult :=
  match codes with
  | [] => StillRetrying
  | roomId :: codes' =>
      if decide (is_Some (rooms !! roomId))
      then createRoom codes' now rooms hostSocketId
      else
        let room :=
          Room.mk roomId hostSocketId JsMap.empty [] 0 false false now in
        Created room (<[roomId := room]> rooms) codes'
  end.

Definition getRoom (rooms : Rooms) (roomId : string) : option Room.t :=
  rooms !! roomId.

Definition roomExists (rooms : Rooms) (roomId : string) : bool :=
  bool_decide (is_Some (rooms !! roomId)).

(** Result of [addPlayerToRoom] and [startGame]: [{ success: true, room }]
    or [{ success: false, message }]. *)
Inductive RoomResult : Type :=
| Success (room : Room.t)
| Failure (message : string).

Definition addPlayerToRoom (rooms : Rooms) (roomId : string)
    (player : Player.t) : Rooms * RoomResult :=
  match getRoom rooms roomId with
  | None => (rooms, Failure "Room not found")
  | Some room =>
      if Room.gameStarted room then (rooms, Failure "Game already started")
      else if decide (CONFIG.MAX_PLAYERS_PER_ROOM
                        ≤ JsMap.size (Room.players room))
      then (rooms, Failure "Room is full")
      else
        let room' :=
          Room.with_players
            (JsMap.set (Player.socketId player) player (Room.players room))
            room in
        (<[roomId := room']> rooms, Success room')
  end.

Definition deleteRoom (rooms : Rooms) (roomId : string) : Rooms :=
  delete roomId rooms.

(** Result of [removePlayerFromRoom]:
    [{ success, shouldDeleteRoom, room }]; [room] is absent when the room
    was not found. *)
Record RemoveResult : Type := mkRemoveResult {
  success : bool;
  shouldDeleteRoom : bool;
  room : option Room.t
}.

(** [removePlayerFromRoom(roomId, socketId)].  The room object is changed
    in place, so the store sees every change made before the room is
    deleted or returned.  [Array.from(room.players.values())[0]] is
    [undefined] for an empty map, which the guard before it excludes (see
    [removePlayerFromRoom_returns]). *)
Definition removePlayerFromRoom (rooms : Rooms) (roomId socketId : string)
  : Rooms * completion RemoveResult :=
  match getRoom rooms roomId with
  | None => (rooms, Normal (mkRemoveResult false false None))
  | Some room =>
      let room1 :=
        Room.with_players (JsMap.delete socketId (Room.players room)) room in
      let room2 :=
        Room.with_teams
          (TeamManager.removeMember socketId <$> Room.teams room1) room1 in
      let shouldDeleteRoom :=
        bool_decide (JsMap.size (Room.players room2) = 0) in
      if shouldDeleteRoom then
        (deleteRoom (<[roomId := room2]> rooms) roomId,
         Normal (mkRemoveResult true shouldDeleteRoom (Some room2)))
      else if bool_decide (Room.hostSocketId room2 = socketId)
              && bool_decide (0 < JsMap.size (Room.players room2))
      then
        match JsMap.values (Room.players room2) !! 0 with
        | Some newHost =>
            let room3 :=
              Room.with_hostSocketId (Player.socketId newHost) room2 in
            (<[roomId := room3]> rooms,
             Normal (mkRemoveResult true shouldDeleteRoom (Some room3)))
        | None => (<[roomId := room2]> rooms, Throw TypeError)
        end
      else
        (<[roomId := room2]> rooms,
         Normal (mkRemoveResult true shouldDeleteRoom (Some room2)))
  end.

Definition startGame (rooms : Rooms) (roomId : string) : Rooms * RoomResult :=
  match getRoom rooms roomId with
  | None => (rooms, Failure "Room not found")
  | Some room =>
      if Room.gameStarted room then (rooms, Failure "Game already started")
      else if decide (JsMap.size (Room.players room)
                        < CONFIG.MIN_PLAYERS_TO_START)
      then (rooms, Failure ("Need at least "
                              +:+ pretty CONFIG.MIN_PLAYERS_TO_START
                              +:+ " players"))
      else
        let room' := Room.with_gameStarted true room in
        (<[roomId := room']> rooms, Success room')
  end.

Definition getRoomCount (rooms : Rooms) : nat := size rooms.

(** The [create-room] request of the socket layer, as far as the store is
    concerned: [createRoom] and then [addPlayerToRoom] for the creator. *)
Definition createRoomRequest (codes : list string) (now : nat)
    (rooms : Rooms) (player : Player.t) : option Rooms :=
  match createRoom codes now rooms (Player.socketId player) with
  | Created room rooms' _ =>
      Some (fst (addPlayerToRoom rooms' (Room.id room) player))
  | StillRetrying => None
  end.

(** One completed operation of the store. *)
Inductive step : Rooms → Rooms → Prop :=
| step_createRoom codes now rooms hostSocketId room rooms' rest :
    createRoom codes now rooms hostSocketId = Created room rooms' rest →
    step rooms rooms'
| step_addPlayerToRoom rooms roomId player :
    step rooms (fst (addPlayerToRoom rooms roomId player))
| step_removePlayerFromRoom rooms roomId socketId :
    step rooms (fst (removePlayerFromRoom rooms roomId socketId))
| step_deleteRoom rooms roomId :
    step rooms (deleteRoom rooms roomId)
| step_startGame rooms roomId :
    step rooms (fst (startGame rooms roomId)).

(** One completed request: as [step], with [createRoom] always followed by
    the creator joining. *)
Inductive request : Rooms → Rooms → Prop :=
| request_createRoom codes now rooms player rooms' :
    createRoomRequest codes now rooms player = Some rooms' →
    request rooms rooms'
| request_addPlayerToRoom rooms roomId player :
    request rooms (fst (addPlayerToRoom rooms roomId player))
| request_removePlayerFromRoom rooms roomId socketId :
    request rooms (fst (removePlayerFromRoom rooms roomId socketId))
| request_deleteRoom rooms roomId :
    request rooms (deleteRoom rooms roomId)
| request_startGame rooms roomId :
    request rooms (fst (startGame rooms roomId)).

(** Every stored room has at least one member. *)
Definition allRoomsInhabited (rooms : Rooms) : Prop :=
  ∀ roomId room, rooms !! roomId = Some room →
    1 ≤ JsMap.size (Room.players room).

(** Every member is stored under its own connection id. *)
Definition keyed (players : JsMap.t Player.t) : Prop :=
  ∀ k p, (k, p) ∈ players → Player.socketId p = k.

(** What [createRoom] and [addPlayerToRoom] establish for a stored room: it
    is stored under its own code, its member map has distinct keys, each
    member is stored under its own connection id, and the members are no
    more than the configured maximum. *)
Definition wellFormed (roomId : string) (room : Room.t) : Prop :=
  Room.id room = roomId
  ∧ JsMap.wf (Room.players room)
  ∧ keyed (Room.players room)
  ∧ JsMap.size (Room.players room) ≤ CONFIG.MAX_PLAYERS_PER_ROOM.

Definition allWellFormed (rooms : Rooms) : Prop :=
  ∀ roomId room, rooms !! roomId = Some room → wellFormed roomId room.

(** The host of every stored room is one of its members. *)
Definition allHostsMembers (rooms : Rooms) : Prop :=
  ∀ roomId room, rooms !! roomId = Some room →
    Room.hostSocketId room ∈ JsMap.keys (Room.players room).

End RoomManager.

(** ** Socket handlers *)

(** The state part of the handlers of [setupSocketHandlers]: what a request
    does to the two singletons and what it passes to its callback.  Joining
    and leaving the socket room, the broadcasts and the log lines are left
    out; the room serialized into a broadcast is read, not changed.  A
    handler runs in a [try] block whose [catch] answers with a fixed
    message.  [socketId] is the [socket.id] of the connection the handler
    belongs to, and [data] is taken to be an object with the fields the
    handler reads. *)
Module SocketHandlers.

Record State : Type := mkState {
  rooms : Rooms;
  players : Registry
}.

(** What the callback receives: [{ success: true }],
    [{ success: true, turnInfo }] or [{ success: false, message }]. *)
Inductive Reply : Type :=
| ReplyOk
| ReplyTurnInfo (turnInfo : TurnManager.TurnInfo)
| ReplyFail (message : string).


(** [socket.on('start-game', ...)]; [numTeams] is [None] when [data] has no
    such field, and [fuel] is the fuel of [balanceTeams].  The room found by
    [getRoom] is the object that [startGame], the team functions and
    [initializeTurns] change, so the store holds the room as the handler
    leaves it, also when a call throws. *)
Definition onStartGame (rnd : nat → nat) (fuel : nat) (st : State)
    (socketId roomId : string) (numTeams : option nat)
  : option (State * Reply) :=
  let numTeams := default CONFIG.DEFAULT_NUM_TEAMS numTeams in
  match RoomManager.getRoom (rooms st) roomId with
  | None => Some (st, ReplyFail "Room not found")
  | Some room =>
      if decide (Room.hostSocketId room ≠ socketId)
      then Some (st, ReplyFail "Only host can start game")
      else
        match RoomManager.startGame (rooms st) roomId with
        | (rooms1, RoomManager.Failure message) =>
            Some (mkState rooms1 (players st), ReplyFail message)
        | (rooms1, RoomManager.Success room1) =>
            let teams0 := TeamManager.createTeams numTeams in
            match TeamManager.assignPlayersToTeams rnd (Room.players room1)
                    teams0 (players st) with
            | (teams1, registry1, Throw _) =>
                Some (mkState
                        (<[roomId := Room.with_teams teams1 room1]> rooms1)
                        registry1,
                      ReplyFail "Failed to start game")
            | (teams1, registry1, Normal _) =>
                match TeamManager.balanceTeams fuel teams1 registry1 with
                | None => None
                | Some (teams2, registry2, Throw _) =>
                    Some (mkState
                            (<[roomId := Room.with_teams teams2 room1]> rooms1)
                            registry2,
                          ReplyFail "Failed to start game")
                | Some (teams2, registry2, Normal _) =>
                    let room3 :=
                      TurnManager.initializeTurns
                        (Room.with_teams teams2 room1) in
                    Some (mkState (<[roomId := room3]> rooms1) registry2,
                          ReplyOk)
                end
            end
        end
  end.

(** [socket.on('make-move', ...)]: the move itself is a placeholder, so the
    critical section between [lockTurn] and [unlockTurn] holds a broadcast
    only. *)
Definition onMakeMove (st : State) (socketId roomId : string)
  : State * Reply :=
  match RoomManager.getRoom (rooms st) roomId with
  | None => (st, ReplyFail "Room not found")
  | Some room =>
      match TurnManager.validateTurn (players st) room socketId with
      | TurnManager.Invalid message => (st, ReplyFail message)
      | TurnManager.Valid _ =>
          let room1 := TurnManager.lockTurn room in
          let room2 := TurnManager.unlockTurn room1 in
          (mkState (<[roomId := room2]> (rooms st)) (players st), ReplyOk)
      end
  end.

(** [socket.on('end-turn', ...)].  The broadcast reads [result.team.id],
    which throws when [advanceTurn] did not advance. *)
Definition onEndTurn (st : State) (socketId roomId : string)
  : State * Reply :=
  match RoomManager.getRoom (rooms st) roomId with
  | None => (st, ReplyFail "Room not found")
  | Some room =>
      match TurnManager.validateTurn (players st) room socketId with
      | TurnManager.Invalid message => (st, ReplyFail message)
      | TurnManager.Valid _ =>
          match TurnManager.advanceTurn room with
          | (room1, Normal (TurnManager.Advanced _ _)) =>
              (mkState (<[roomId := room1]> (rooms st)) (players st),
               ReplyTurnInfo (TurnManager.getTurnInfo room1))
          | (room1, _) =>
              (mkState (<[roomId := room1]> (rooms st)) (players st),
               ReplyFail "Failed to end turn")
          end
      end
  end.

(** [socket.on('disconnect', ...)]: no callback and no [try] block.  A room
    id that is [null] or the empty string is falsy. *)
Definition onDisconnect (st : State) (socketId : string)
  : State * completion unit :=
  let left :=
    match PlayerManager.getPlayer (players st) socketId with
    | Some disconnectedPlayer =>
        match Player.roomId disconnectedPlayer with
        | Some roomId =>
            if decide (roomId = "") then (rooms st, Normal ())
            else
              match RoomManager.removePlayerFromRoom (rooms st) roomId
                      socketId with
              | (rooms', Normal _) => (rooms', Normal ())
              | (rooms', Throw e) => (rooms', Throw e)
              end
        | None => (rooms st, Normal ())
        end
    | None => (rooms st, Normal ())
    end in
  match left with
  | (rooms', Normal _) =>
      (mkState rooms' (PlayerManager.removePlayer (players st) socketId),
       Normal ())
  | (rooms', Throw e) => (mkState rooms' (players st), Throw e)
  end.

End SocketHandlers.

(** ** The specification's reading of [validateTurn] *)

Module TurnSpec.
Import TurnManager.

(** The reject reasons.  The specification names four of them; [NoTeams]
    is the fifth one of the code. *)
Inductive Reason : Type :=
| NotStarted
| Locked
| NoTeams
| UnknownPlayer
| WrongTeam.

Inductive Decision : Type :=
| Accept (currentTeamId : option nat)
| Reject (reason : Reason).

Fixpoint startsWith (prefix s : string) : bool :=
  match prefix, s with
  | EmptyString, _ => true
  | String a prefix', String b s' => Ascii.eqb a b && startsWith prefix' s'
  | String _ _, EmptyString => false
  end.

(** The reason a message of [validateTurn] stands for; the last message
    carries the name of the current team. *)
Definition reasonOfMessage (message : string) : option Reason :=
  if decide (message = "Game has not started") then Some NotStarted
  else if decide (message = "Turn is locked, please wait") then Some Locked
  else if decide (message = "No teams configured") then Some NoTeams
  else if decide (message = "Player not found") then Some UnknownPlayer
  else if startsWith "Not your turn (waiting for " message
       then Some WrongTeam
  else None.

Definition decisionOf (v : Validation) : option Decision :=
  match v with
  | Valid teamId => Some (Accept (Some teamId))
  | Invalid message => Reject <$> reasonOfMessage message
  end.

(** [validateTurn] as the specification words it: [NotStarted] if the game
    has not started, [Locked] if locked, [UnknownPlayer] if the connection
    id is unresolved, [WrongTeam] if the player's team is not the current
    team; otherwise accept, yielding the current team id. *)
Definition validateTurnSpec (players : Registry) (room : Room.t)
    (socketId : string) : Decision :=
  if negb (Room.gameStarted room) then Reject NotStarted
  else if Room.turnLocked room then Reject Locked
  else
    match PlayerManager.getPlayer players socketId with
    | None => Reject UnknownPlayer
    | Some player =>
        if decide (Player.teamId player = getCurrentTeamId room)
        then Accept (getCurrentTeamId room)
        else Reject WrongTeam
    end.

(** The same decision list with the check the code makes between the lock
    check and the player lookup. *)
Definition validateTurnAmended (players : Registry) (room : Room.t)
    (socketId : string) : Decision :=
  if negb (Room.gameStarted room) then Reject NotStarted
  else if Room.turnLocked room then Reject Locked
  else if decide (Room.teams room = []) then Reject NoTeams
  else validateTurnSpec players room socketId.
End TurnSpec.

(** ** Sample data *)

Module Sample.
Definition player (socketId : string) (teamId : option nat) : Player.t :=
  Player.mk ("id-" +:+ socketId) socketId ("Player-" +:+ socketId) teamId
            true 0 None.

Definition team (teamId : nat) (name : string) (players : list string)
  : Team.t :=
  Team.mk teamId name players 0.

Definition members (socketIds : list string) : JsMap.t Player.t :=
  (λ s, (s, player s None)) <$> socketIds.

(** A started, unlocked room without teams. *)
Definition roomNoTeams : Room.t :=
  Room.mk "ABC123" "s1" (members ["s1"; "s2"]) [] 0 true false 0.

(** A started room of three players in two teams, at turn 5. *)
Definition roomTwoTeams : Room.t :=
  Room.mk "ABC123" "s1" (members ["s1"; "s2"; "s3"])
          [team 0 "Red" ["s1"; "s3"]; team 1 "Blue" ["s2"]] 5 true false 0.

Definition registryTwoTeams : Registry :=
  <["s1" := player "s1" (Some 0)]>
    (<["s2" := player "s2" (Some 1)]>
       (<["s3" := player "s3" (Some 0)]> ∅)).

(** A registry in which connection "s1" is registered, in a room and in a
    team. *)
Definition registeredPlayer : Player.t :=
  Player.mk "k3v9x2ab" "s1" "Player-k3v9" (Some 1) true 100 (Some "ABC123").

Definition registryOne : Registry := {[ "s1" := registeredPlayer ]}.

(** A store whose only room has the code "AAAAAA". *)
Definition roomsOne : Rooms :=
  {[ "AAAAAA" :=
       Room.mk "AAAAAA" "s1" (members ["s1"]) [] 0 false false 0 ]}.

(** A store with a room of three members hosted by "s1". *)
Definition roomsThree : Rooms := {[ "ABC123" := roomTwoTeams ]}.

(** Four teams of sizes 0, 0, 3 and 3. *)
Definition teamsUneven : list Team.t :=
  [team 0 "Red" []; team 1 "Blue" []; team 2 "Green" ["a"; "b"; "c"];
   team 3 "Yellow" ["d"; "e"; "f"]].

(** Two teams, the first empty and the second of [n] members. *)
Definition teamsLopsided (n : nat) : list Team.t :=
  [team 0 "Red" []; team 1 "Blue" ((λ i, "p" +:+ pretty i) <$> seq 0 n)].
End Sample.

(** * Properties *)

(** ** Turn coordinator *)

Section Turn.
Import TurnManager TurnSpec.

Lemma getCurrentTeam_is_Some (room : Room.t) :
  Room.teams room ≠ [] → is_Some (getCurrentTeam room).
Proof.
  intros Hne. unfold getCurrentTeam.
  destruct (Room.teams room) as [|t ts] eqn:E; [done|].
  case_decide as Hlen; [simpl in Hlen; lia|].
  apply lookup_lt_is_Some. apply Nat.mod_upper_bound. done.
Qed.

Lemma getCurrentTeam_nil (room : Room.t) :
  Room.teams room = [] → getCurrentTeam room = None.
Proof. intros E. unfold getCurrentTeam. rewrite E. done. Qed.

Lemma getCurrentTeam_lookup (room : Room.t) :
  Room.teams room ≠ [] →
  getCurrentTeam room =
    Room.teams room !! (Room.currentTurn room mod length (Room.teams room)).
Proof.
  intros Hne. unfold getCurrentTeam.
  case_decide as Hlen; [|done].
  by apply nil_length_inv in Hlen.
Qed.

Lemma wrong_team_message (name : string) :
  reasonOfMessage ("Not your turn (waiting for " +:+ name +:+ ")")
  = Some WrongTeam.
Proof.
  unfold reasonOfMessage. repeat case_decide; try discriminate. reflexivity.
Qed.

Lemma advanceTurn_started (room : Room.t) :
  Room.gameStarted room = true →
  Room.teams room ≠ [] →
  ∃ newTeam,
    Room.teams room
      !! (S (Room.currentTurn room) mod length (Room.teams room))
    = Some newTeam
    ∧ advanceTurn room =
        (Room.with_turnLocked false
           (Room.with_currentTurn (S (Room.currentTurn room)) room),
         Normal (Advanced newTeam (S (Room.currentTurn room)))).
Proof.
  intros Hs Hne. unfold advanceTurn. rewrite Hs. simpl.
  set (room' := Room.with_turnLocked _ _).
  assert (Hne' : Room.teams room' ≠ []) by done.
  destruct (getCurrentTeam_is_Some room' Hne') as [newTeam Hcur].
  exists newTeam. rewrite Hcur. split; [|done].
  rewrite getCurrentTeam_lookup in Hcur by done. exact Hcur.
Qed.

Lemma advanceTurns_fields (n : nat) (room : Room.t) :
  Room.gameStarted room = true →
  Room.teams room ≠ [] →
  Room.teams (advanceTurns n room) = Room.teams room
  ∧ Room.gameStarted (advanceTurns n room) = true
  ∧ Room.currentTurn (advanceTurns n room) = Room.currentTurn room + n.
Proof.
  intros Hs Hne. induction n as [|n IH].
  - simpl. auto with lia.
  - destruct IH as (Ht & Hg & Hc).
    unfold advanceTurns in *. simpl.
    set (r := Nat.iter n _ room) in *.
    destruct (advanceTurn_started r Hg) as (newTeam & _ & ->);
      [by rewrite Ht|].
    simpl. rewrite Ht, Hg, Hc. auto with lia.
Qed.

(** C1 (as stated, refuted).  In a started, unlocked room without teams
    the code rejects an unknown connection with "No teams configured",
    which is none of the four reasons of the claim; the claim's decision
    list gives [UnknownPlayer] there. *)
Lemma validateTurn_spec_counterexample :
  validateTurn ∅ Sample.roomNoTeams "s9" = Invalid "No teams configured"
  ∧ validateTurnSpec ∅ Sample.roomNoTeams "s9" = Reject UnknownPlayer
  ∧ decisionOf (validateTurn ∅ Sample.roomNoTeams "s9")
    ≠ Some (validateTurnSpec ∅ Sample.roomNoTeams "s9").
Proof. split; [reflexivity|]. split; [reflexivity|]. discriminate. Qed.

(** C1 (amended).  [validateTurn] returns a verdict and no state: it is a
    pure predicate.  It accepts if and only if the game has started, the
    turn is not locked, the room has a current team, the connection id
    resolves to a known player and that player's team id is the current
    team's id; it then yields the current team id.  Otherwise it rejects
    with the first reason that applies of: not started, locked, no teams
    configured, unknown player, wrong team. *)
Theorem validateTurn_decision (players : Registry) (room : Room.t)
    (socketId : string) :
  decisionOf (validateTurn players room socketId)
  = Some (validateTurnAmended players room socketId)
  ∧ ∀ teamId,
      validateTurn players room socketId = Valid teamId ↔
      Room.gameStarted room = true
      ∧ Room.turnLocked room = false
      ∧ ∃ currentTeam player,
          getCurrentTeam room = Some currentTeam
          ∧ PlayerManager.getPlayer players socketId = Some player
          ∧ Player.teamId player = Some (Team.id currentTeam)
          ∧ teamId = Team.id currentTeam.
Proof.
  unfold validateTurn, validateTurnAmended, validateTurnSpec, getCurrentTeamId.
  destruct (Room.gameStarted room) eqn:Hs; simpl.
  2:{ split; [done|]. intros t; split; [done|]. intros (? & _); done. }
  destruct (Room.turnLocked room) eqn:Hl; simpl.
  { split; [done|]. intros t; split; [done|]. intros (_ & ? & _); done. }
  destruct (decide (Room.teams room = [])) as [Hnil|Hne].
  { rewrite (getCurrentTeam_nil room Hnil). split; [done|].
    intros t; split; [done|]. intros (_ & _ & ? & ? & ? & _); done. }
  destruct (getCurrentTeam_is_Some room Hne) as [currentTeam Hcur].
  rewrite Hcur.
  destruct (PlayerManager.getPlayer players socketId) as [player|] eqn:Hp.
  2:{ split; [done|]. intros t; split; [done|].
      intros (_ & _ & ? & ? & _ & ? & _); done. }
  destruct (decide (Player.teamId player ≠ Some (Team.id currentTeam)))
    as [Hwrong|Hright].
  - split.
    + cbn [decisionOf]. rewrite wrong_team_message. cbn [fmap option_fmap option_map].
      by rewrite decide_False.
    + intros t; split; [done|].
      intros (_ & _ & c & p & Hc & Hp' & Ht & _). congruence.
  - apply dec_stable in Hright. split.
    + simpl. by rewrite decide_True.
    + intros t; split.
      * intros [= <-]. eauto 10.
      * intros (_ & _ & c & p & Hc & Hp' & Ht & ->). congruence.
Qed.

(** C7.  In a started room with a non-empty team list of length [T], one
    [advanceTurn] takes the counter from [k] to [k + 1] and makes
    [teams[(k + 1) mod T]] the current team; every further application
    returns as well, and [T] applications bring the current team
    ([teams[counter mod T]]) back to what it was. *)
Theorem advanceTurn_cyclic (room : Room.t) :
  Room.gameStarted room = true →
  Room.teams room ≠ [] →
  let T := length (Room.teams room) in
  let k := Room.currentTurn room in
  (∃ newTeam,
      snd (advanceTurn room) = Normal (Advanced newTeam (k + 1))
      ∧ Room.teams room !! ((k + 1) mod T) = Some newTeam
      ∧ getCurrentTeam (fst (advanceTurn room)) = Some newTeam
      ∧ Room.currentTurn (fst (advanceTurn room)) = k + 1
      ∧ Room.teams (fst (advanceTurn room)) = Room.teams room)
  ∧ (∀ n, ∃ team,
       snd (advanceTurn (advanceTurns n room))
       = Normal (Advanced team (k + n + 1)))
  ∧ getCurrentTeam (advanceTurns T room) = getCurrentTeam room
  ∧ getCurrentTeam room = Room.teams room !! (k mod T).
Proof.
  intros Hs Hne T k. split; [|split; [|split]].
  - destruct (advanceTurn_started room Hs Hne) as (newTeam & Hlook & ->).
    exists newTeam. simpl. replace (k + 1) with (S k) by lia.
    repeat split; try done.
    rewrite getCurrentTeam_lookup by done. exact Hlook.
  - intros n.
    destruct (advanceTurns_fields n room Hs Hne) as (Ht & Hg & Hc).
    destruct (advanceTurn_started (advanceTurns n room) Hg)
      as (team & _ & ->); [by rewrite Ht|].
    exists team. simpl. rewrite Hc. do 2 f_equal. lia.
  - destruct (advanceTurns_fields T room Hs Hne) as (Ht & _ & Hc).
    rewrite !getCurrentTeam_lookup by (by rewrite ?Ht).
    rewrite Ht, Hc. fold T. fold k.
    replace (k + T) with (k + 1 * T) by lia.
    rewrite Nat.Div0.mod_add. done.
  - by apply getCurrentTeam_lookup.
Qed.

Lemma advanceTurn_cyclic_witness :
  Room.gameStarted Sample.roomTwoTeams = true
  ∧ Room.teams Sample.roomTwoTeams ≠ []
  ∧ getCurrentTeam (advanceTurns 2 Sample.roomTwoTeams)
    = getCurrentTeam Sample.roomTwoTeams.
Proof.
  split; [reflexivity|]. split; [discriminate|].
  apply (advanceTurn_cyclic Sample.roomTwoTeams); [reflexivity|discriminate].
Defined.

(** C8 (as stated, refuted).  [resetTurns] takes the counter of a room at
    turn 5 to 0, and [setTurn] to team 0 does the same. *)
Lemma turn_counter_counterexample :
  Room.currentTurn Sample.roomTwoTeams = 5
  ∧ Room.currentTurn (apply OpResetTurns Sample.roomTwoTeams) = 0
  ∧ Room.currentTurn (apply (OpSetTurn 0) Sample.roomTwoTeams) = 0
  ∧ ¬ (∀ op room,
         Room.currentTurn room < Room.currentTurn (apply op room)).
Proof.
  repeat split; try reflexivity.
  intros H. specialize (H OpResetTurns Sample.roomTwoTeams).
  vm_compute in H. lia.
Qed.

Lemma findIndex_lt (teamId : nat) (teams : list Team.t) (i : nat) :
  findIndex teamId teams = Some i →
  ∃ team, teams !! i = Some team ∧ Team.id team = teamId.
Proof.
  unfold findIndex. intros H.
  destruct (list_find _ teams) as [[j team]|] eqn:E; [|done].
  simpl in H. injection H as ->.
  apply list_find_Some in E as (Hl & Hid & _). eauto.
Qed.

(** C8 (amended).  Every operation of the turn coordinator leaves the team
    list as it is, and with a non-empty team list the current-team index
    [counter mod T] stays below [T], so that there is a current team.
    [advanceTurn] in a started room takes the counter from [k] to [k + 1];
    [lockTurn], [unlockTurn] and [advanceTurn] in a room not started leave
    it at [k]; [setTurn] replaces it by the position of the team with the
    given id (a value below [T], whatever [k] was) or leaves it when no
    team has that id; [initializeTurns] and [resetTurns] set it to 0. *)
Theorem turn_counter_after_op (op : Op) (room : Room.t) :
  let T := length (Room.teams room) in
  let k := Room.currentTurn room in
  let k' := Room.currentTurn (apply op room) in
  Room.teams (apply op room) = Room.teams room
  ∧ (Room.teams room ≠ [] →
     k' mod T < T ∧ is_Some (getCurrentTeam (apply op room)))
  ∧ match op with
    | OpAdvanceTurn => k' = if Room.gameStarted room then k + 1 else k
    | OpLockTurn | OpUnlockTurn => k' = k
    | OpSetTurn teamId =>
        match findIndex teamId (Room.teams room) with
        | Some i =>
            k' = i ∧ i < T
            ∧ Team.id <$> Room.teams room !! i = Some teamId
        | None => k' = k
        end
    | OpInitializeTurns | OpResetTurns => k' = 0
    end.
Proof.
  intros T k k'.
  assert (Hteams : Room.teams (apply op room) = Room.teams room).
  { destruct op; simpl; try done.
    - unfold advanceTurn. destruct (Room.gameStarted room); simpl; [|done].
      by destruct (getCurrentTeam _).
    - unfold setTurn. by destruct (findIndex _ _). }
  split; [done|]. split.
  - intros Hne. split.
    + apply Nat.mod_upper_bound. subst T. by destruct (Room.teams room).
    + apply getCurrentTeam_is_Some. by rewrite Hteams.
  - subst k k'. destruct op; simpl; try done.
    + unfold advanceTurn. destruct (Room.gameStarted room); simpl; [|done].
      destruct (getCurrentTeam _); simpl; lia.
    + unfold setTurn.
      destruct (findIndex teamId (Room.teams room)) as [i|] eqn:E; [|done].
      destruct (findIndex_lt _ _ _ E) as (team & Hl & Hid).
      simpl. split; [done|]. split.
      * by eapply lookup_lt_Some.
      * by rewrite Hl, <- Hid.
Qed.
End Turn.

(** ** Player registry *)

Section Players.
Import PlayerManager.

(** C6 (as stated, refuted).  Connection "s1" is registered, in room
    "ABC123" and in team 1.  [createPlayer] for "s1" returns a record with
    the new id and without room and team, and the registry then holds that
    record in place of the existing one. *)
Lemma createPlayer_idempotent_counterexample :
  getPlayer Sample.registryOne "s1" = Some Sample.registeredPlayer
  ∧ snd (createPlayer "q7m2c5zz" "w8e1r4tt" 200 Sample.registryOne "s1" None)
    = Player.mk "q7m2c5zz" "s1" "Player-w8e1" None true 200 None
  ∧ snd (createPlayer "q7m2c5zz" "w8e1r4tt" 200 Sample.registryOne "s1" None)
    ≠ Sample.registeredPlayer
  ∧ getPlayer
      (fst (createPlayer "q7m2c5zz" "w8e1r4tt" 200 Sample.registryOne "s1" None))
      "s1"
    ≠ Some Sample.registeredPlayer.
Proof.
  split; [reflexivity|]. split; [reflexivity|]. split; [discriminate|].
  unfold createPlayer, getPlayer. cbn [fst].
  rewrite lookup_insert_eq. discriminate.
Qed.

(** C6 (amended).  [createPlayer] does not look the connection id up: for
    every connection id, registered or not, it builds a new record (the
    freshly generated player id, no room, no team, connected), stores it
    under the connection id in place of whatever was there, and returns it;
    the other entries of the registry are unchanged.  When the connection
    id was registered with another player id, the record returned is not
    the existing one. *)
Theorem createPlayer_replaces (newId suffixSource : string) (now : nat)
    (players : Registry) (socketId : string) (username : option string) :
  let players' :=
    fst (createPlayer newId suffixSource now players socketId username) in
  let player :=
    snd (createPlayer newId suffixSource now players socketId username) in
  getPlayer players' socketId = Some player
  ∧ Player.id player = newId
  ∧ Player.socketId player = socketId
  ∧ Player.teamId player = None
  ∧ Player.roomId player = None
  ∧ Player.isConnected player = true
  ∧ Player.connectedAt player = now
  ∧ (∀ other, other ≠ socketId →
       getPlayer players' other = getPlayer players other)
  ∧ (∀ existing, getPlayer players socketId = Some existing →
       Player.id existing ≠ newId → player ≠ existing).
Proof.
  unfold createPlayer, getPlayer. cbn [fst snd].
  rewrite lookup_insert_eq. repeat split; try done.
  - intros other Hne. by rewrite lookup_insert_ne.
  - intros existing _ Hid Heq. apply Hid. by rewrite <- Heq.
Qed.
End Players.

(** ** Insertion-ordered maps *)

Section JsMapFacts.
Context {V : Type}.
Implicit Types m : JsMap.t V.

Lemma JsMap_get_None k m : JsMap.get k m = None ↔ k ∉ JsMap.keys m.
Proof.
  induction m as [|[k' v] m IH]; simpl.
  - split; [intros _; apply not_elem_of_nil|done].
  - case_decide as Hk.
    + subst. split; [done|]. intros []. left.
    + rewrite IH, not_elem_of_cons. split; [by intros ?|by intros [_ ?]].
Qed.

Lemma JsMap_get_is_Some k m : is_Some (JsMap.get k m) ↔ k ∈ JsMap.keys m.
Proof.
  rewrite <- not_eq_None_Some, JsMap_get_None.
  split; [apply dec_stable|tauto].
Qed.

Lemma JsMap_keys_delete k m :
  JsMap.wf m →
  JsMap.keys (JsMap.delete k m) = filter (λ k', k' ≠ k) (JsMap.keys m).
Proof.
  unfold JsMap.wf. induction m as [|[k' v] m IH]; simpl; [done|].
  intros [Hnotin Hnd]%NoDup_cons. case_decide as Hk.
  - subst. rewrite filter_cons_False by (by intros ?).
    clear IH. unfold JsMap.keys in Hnotin.
    induction m as [|[k2 v2] m IH2]; simpl; [done|].
    apply not_elem_of_cons in Hnotin as [Hne Hnotin].
    apply NoDup_cons in Hnd as [_ Hnd].
    rewrite filter_cons_True by done. f_equal. by apply IH2.
  - rewrite filter_cons_True by done. simpl. f_equal. by apply IH.
Qed.

Lemma JsMap_elem_of_delete k m e : e ∈ JsMap.delete k m → e ∈ m.
Proof.
  induction m as [|[k' v] m IH]; simpl; [done|].
  case_decide; [by right|].
  intros [->|?]%elem_of_cons; [left|right; auto].
Qed.

Lemma JsMap_size_delete k m :
  is_Some (JsMap.get k m) →
  S (JsMap.size (JsMap.delete k m)) = JsMap.size m.
Proof.
  unfold JsMap.size. induction m as [|[k' v] m IH]; simpl.
  - by intros [? ?].
  - case_decide as Hk; [done|]. intros Hget. simpl. f_equal. by apply IH.
Qed.

Lemma JsMap_size_set k v m : 1 ≤ JsMap.size (JsMap.set k v m).
Proof.
  unfold JsMap.size. destruct m as [|[k' v'] m]; simpl; [done|].
  case_decide; simpl; lia.
Qed.

Lemma JsMap_wf_set k v m : JsMap.wf m → JsMap.wf (JsMap.set k v m).
Proof.
  unfold JsMap.wf, JsMap.keys.
  assert (Hkeys : ∀ m' : JsMap.t V, ∀ x,
             x ∈ (JsMap.set k v m').*1 → x = k ∨ x ∈ m'.*1).
  { induction m' as [|[k' v'] m' IH]; simpl; intros x.
    - intros ?%list_elem_of_singleton. by left.
    - case_decide as Hk; simpl; rewrite !elem_of_cons.
      + intros [?|?]; auto.
      + intros [?|[?|?]%IH]; auto. }
  induction m as [|[k' v'] m IH]; simpl.
  - intros _. apply NoDup_singleton.
  - intros [Hnotin Hnd]%NoDup_cons. case_decide as Hk; simpl.
    + subst. by apply NoDup_cons.
    + apply NoDup_cons. split; [|by apply IH].
      intros [Heq|Hin]%Hkeys; [by apply Hk|by apply Hnotin].
Qed.

Lemma JsMap_wf_delete k m : JsMap.wf m → JsMap.wf (JsMap.delete k m).
Proof.
  intros Hwf. unfold JsMap.wf. rewrite JsMap_keys_delete by done.
  by apply NoDup_filter.
Qed.
End JsMapFacts.

(** ** Room store *)

Section Rooms.
Import RoomManager.

Lemma createRoom_skips_taken (taken codes : list string) (now : nat)
    (rooms : Rooms) (hostSocketId : string) :
  Forall (λ code, is_Some (rooms !! code)) taken →
  createRoom (taken ++ codes) now rooms hostSocketId
  = createRoom codes now rooms hostSocketId.
Proof.
  induction 1 as [|code taken Hcode _ IH]; simpl; [done|].
  by rewrite decide_True.
Qed.

Lemma createRoom_fresh (code : string) (rest : list string) (now : nat)
    (rooms : Rooms) (hostSocketId : string) :
  rooms !! code = None →
  createRoom (code :: rest) now rooms hostSocketId
  = Created (Room.mk code hostSocketId JsMap.empty [] 0 false false now)
      (<[code := Room.mk code hostSocketId JsMap.empty [] 0 false false now]>
         rooms)
      rest.
Proof.
  intros Hfresh. simpl. rewrite decide_False; [done|].
  rewrite Hfresh. by intros [? ?].
Qed.

Lemma createRoom_Created_inv (codes : list string) (now : nat)
    (rooms : Rooms) (hostSocketId : string) room rooms' rest :
  createRoom codes now rooms hostSocketId = Created room rooms' rest →
  ∃ taken,
    codes = taken ++ Room.id room :: rest
    ∧ Forall (λ code, is_Some (rooms !! code)) taken
    ∧ rooms !! Room.id room = None
    ∧ room = Room.mk (Room.id room) hostSocketId JsMap.empty [] 0 false
               false now
    ∧ rooms' = <[Room.id room := room]> rooms.
Proof.
  induction codes as [|code codes IH]; simpl; [done|].
  case_decide as Hcode.
  - intros (taken & -> & Htaken & Hrest)%IH.
    exists (code :: taken). split; [done|]. split; [|done].
    by constructor.
  - intros [= <- <- <-]. exists []. simpl. repeat split; try done.
    by apply eq_None_not_Some.
Qed.

Lemma allRoomsInhabited_insert (rooms : Rooms) (roomId : string)
    (room : Room.t) :
  allRoomsInhabited rooms →
  1 ≤ JsMap.size (Room.players room) →
  allRoomsInhabited (<[roomId := room]> rooms).
Proof.
  intros Hinv Hsize k r. rewrite lookup_insert.
  case_decide; [by intros [= <-]|apply Hinv].
Qed.

Lemma allRoomsInhabited_delete (rooms : Rooms) (roomId : string) :
  allRoomsInhabited rooms → allRoomsInhabited (delete roomId rooms).
Proof.
  intros Hinv k r. rewrite lookup_delete.
  case_decide; [done|apply Hinv].
Qed.

Lemma values_lookup_0 (players : JsMap.t Player.t) :
  JsMap.size players ≠ 0 → is_Some (JsMap.values players !! 0).
Proof. destruct players; [done|]. intros _. by eexists. Qed.

(** The guard [room.players.size > 0] keeps [removePlayerFromRoom] from
    reading the first value of an empty map: it always returns. *)
Lemma removePlayerFromRoom_returns (rooms : Rooms) (roomId socketId : string) :
  ∃ result, snd (removePlayerFromRoom rooms roomId socketId) = Normal result.
Proof.
  unfold removePlayerFromRoom.
  destruct (getRoom rooms roomId) as [room|]; [|by eexists].
  cbn [Room.players Room.with_teams Room.with_players Room.hostSocketId].
  case_bool_decide as Hsize; [by eexists|].
  destruct (bool_decide (Room.hostSocketId room = socketId) && _);
    [|by eexists].
  destruct (values_lookup_0 _ Hsize) as [newHost ->]. by eexists.
Qed.

Lemma removePlayerFromRoom_inhabited (rooms : Rooms) (roomId socketId : string) :
  allRoomsInhabited rooms →
  allRoomsInhabited (fst (removePlayerFromRoom rooms roomId socketId)).
Proof.
  intros Hinv. unfold removePlayerFromRoom.
  destruct (getRoom rooms roomId) as [room|]; [|done].
  cbn [Room.players Room.with_teams Room.with_players Room.hostSocketId].
  case_bool_decide as Hsize.
  { cbn [fst]. unfold deleteRoom. rewrite delete_insert_eq.
    by apply allRoomsInhabited_delete. }
  assert (1 ≤ JsMap.size (JsMap.delete socketId (Room.players room)))
    by lia.
  destruct (bool_decide (Room.hostSocketId room = socketId) && _).
  - destruct (JsMap.values _ !! 0); cbn [fst];
      by apply allRoomsInhabited_insert.
  - cbn [fst]. by apply allRoomsInhabited_insert.
Qed.

Lemma addPlayerToRoom_inhabited (rooms : Rooms) (roomId : string)
    (player : Player.t) :
  allRoomsInhabited rooms →
  allRoomsInhabited (fst (addPlayerToRoom rooms roomId player)).
Proof.
  intros Hinv. unfold addPlayerToRoom.
  destruct (getRoom rooms roomId) as [room|]; [|done].
  destruct (Room.gameStarted room); [done|].
  case_decide; [done|]. cbn [fst].
  apply allRoomsInhabited_insert; [done|]. apply JsMap_size_set.
Qed.

Lemma startGame_inhabited (rooms : Rooms) (roomId : string) :
  allRoomsInhabited rooms →
  allRoomsInhabited (fst (startGame rooms roomId)).
Proof.
  intros Hinv. unfold startGame.
  destruct (getRoom rooms roomId) as [room|] eqn:Hroom; [|done].
  destruct (Room.gameStarted room); [done|].
  case_decide; [done|]. cbn [fst].
  apply allRoomsInhabited_insert; [done|]. exact (Hinv roomId room Hroom).
Qed.

Lemma createRoomRequest_inhabited (codes : list string) (now : nat)
    (rooms rooms' : Rooms) (player : Player.t) :
  createRoomRequest codes now rooms player = Some rooms' →
  allRoomsInhabited rooms →
  allRoomsInhabited rooms'.
Proof.
  unfold createRoomRequest.
  destruct (createRoom _ _ _ _) as [room rooms1 rest|] eqn:Hcreate; [|done].
  intros [= <-] Hinv.
  apply createRoom_Created_inv in Hcreate
    as (taken & _ & _ & Hfresh & Hroom & ->).
  unfold addPlayerToRoom, getRoom. rewrite lookup_insert_eq.
  rewrite Hroom. cbn [Room.gameStarted Room.players Room.id].
  rewrite decide_False by (unfold CONFIG.MAX_PLAYERS_PER_ROOM; simpl; lia).
  cbn [fst]. rewrite insert_insert_eq.
  apply allRoomsInhabited_insert; [done|]. apply JsMap_size_set.
Qed.

Lemma request_inhabited (rooms rooms' : Rooms) :
  request rooms rooms' → allRoomsInhabited rooms → allRoomsInhabited rooms'.
Proof.
  destruct 1; intros Hinv.
  - by eapply createRoomRequest_inhabited.
  - by apply addPlayerToRoom_inhabited.
  - by apply removePlayerFromRoom_inhabited.
  - by apply allRoomsInhabited_delete.
  - by apply startGame_inhabited.
Qed.

(** C3 (as stated, refuted).  [createRoom] on the empty store returns
    after storing a room without members: one step of the store reaches a
    state in which a stored room has an empty member set. *)
Lemma createRoom_empty_room_counterexample :
  ∃ room rooms',
    createRoom ["ABC123"] 0 ∅ "s1" = Created room rooms' []
    ∧ rooms' !! "ABC123" = Some room
    ∧ JsMap.size (Room.players room) = 0
    ∧ rtc step ∅ rooms'
    ∧ ¬ allRoomsInhabited rooms'.
Proof.
  set (room := Room.mk "ABC123" "s1" JsMap.empty [] 0 false false 0).
  assert (Hcreate : createRoom ["ABC123"] 0 ∅ "s1"
                    = Created room (<["ABC123" := room]> ∅) []).
  { apply createRoom_fresh, lookup_empty. }
  exists room, (<["ABC123" := room]> ∅).
  split; [done|]. split; [apply lookup_insert_eq|].
  split; [reflexivity|]. split.
  - apply rtc_once. by eapply step_createRoom.
  - intros Hinv.
    specialize (Hinv "ABC123" room (lookup_insert_eq _ _ _)).
    simpl in Hinv. lia.
Qed.

(** C3 (amended).  Removing the only member of a stored room deletes the
    room in the same call: the call reports the deletion and [roomExists]
    is false afterwards.  [createRoom] by itself stores a room without
    members; when it is followed by [addPlayerToRoom] for the creator, as
    the create-room request does, every store reached from the empty one by
    create-room requests, [addPlayerToRoom], [removePlayerFromRoom],
    [deleteRoom] and [startGame] holds only rooms with at least one
    member. *)
Theorem rooms_inhabited_between_requests :
  (∀ rooms, rtc request ∅ rooms → allRoomsInhabited rooms)
  ∧ (∀ rooms roomId room socketId,
       rooms !! roomId = Some room →
       JsMap.keys (Room.players room) = [socketId] →
       ∃ room',
         removePlayerFromRoom rooms roomId socketId
         = (delete roomId rooms,
            Normal (mkRemoveResult true true (Some room')))
         ∧ JsMap.size (Room.players room') = 0
         ∧ roomExists (fst (removePlayerFromRoom rooms roomId socketId))
             roomId = false).
Proof.
  split.
  - intros rooms Hreach.
    assert (Hgen : ∀ r1 r2, rtc request r1 r2 →
              allRoomsInhabited r1 → allRoomsInhabited r2).
    { induction 1 as [|r1 r2 r3 Hstep _ IH]; [done|].
      intros Hinv. apply IH. by eapply request_inhabited. }
    apply (Hgen ∅ rooms Hreach). intros k r. by rewrite lookup_empty.
  - intros rooms roomId room socketId Hroom Hkeys.
    destruct (Room.players room) as [|[k p] [|? ?]] eqn:Hplayers;
      try done.
    injection Hkeys as ->.
    unfold removePlayerFromRoom, getRoom. rewrite Hroom.
    cbn [Room.players Room.with_teams Room.with_players Room.hostSocketId].
    rewrite Hplayers. simpl. rewrite decide_True by done.
    rewrite bool_decide_eq_true_2 by done.
    unfold deleteRoom. rewrite delete_insert_eq.
    eexists. split; [done|]. split; [done|].
    cbn [fst]. unfold roomExists. rewrite lookup_delete_eq.
    apply bool_decide_eq_false_2. by intros [? ?].
Qed.

(** C4.  In a room of at least two members whose host is the member
    [socketId], [removePlayerFromRoom] keeps the room in the store, and
    the room it stores and returns has as host the first remaining member
    in insertion order, who is not the removed one.  The members are
    stored under their own connection id, as [addPlayerToRoom] stores
    them. *)
Theorem removePlayerFromRoom_host_transfer (rooms : Rooms)
    (roomId socketId : string) (room : Room.t) :
  rooms !! roomId = Some room →
  JsMap.wf (Room.players room) →
  (∀ k p, (k, p) ∈ Room.players room → Player.socketId p = k) →
  2 ≤ JsMap.size (Room.players room) →
  Room.hostSocketId room = socketId →
  socketId ∈ JsMap.keys (Room.players room) →
  ∃ room' newHost,
    removePlayerFromRoom rooms roomId socketId
    = (<[roomId := room']> rooms,
       Normal (mkRemoveResult true false (Some room')))
    ∧ JsMap.keys (Room.players room')
      = filter (λ k, k ≠ socketId) (JsMap.keys (Room.players room))
    ∧ head (JsMap.keys (Room.players room')) = Some newHost
    ∧ Room.hostSocketId room' = newHost
    ∧ newHost ∈ JsMap.keys (Room.players room)
    ∧ newHost ≠ socketId
    ∧ getRoom (fst (removePlayerFromRoom rooms roomId socketId)) roomId
      = Some room'.
Proof.
  intros Hroom Hwf Hkeyed Hsize Hhost Hmember.
  pose proof (JsMap_keys_delete socketId _ Hwf) as Hkeys.
  apply JsMap_get_is_Some in Hmember.
  pose proof (JsMap_size_delete _ _ Hmember) as Hsize'.
  unfold removePlayerFromRoom, getRoom. rewrite Hroom.
  cbn [Room.players Room.with_teams Room.with_players Room.hostSocketId].
  destruct (JsMap.delete socketId (Room.players room))
    as [|[k newHost] rest] eqn:Hdel.
  { simpl in Hsize'. lia. }
  rewrite bool_decide_eq_false_2 by done.
  rewrite Hhost, bool_decide_eq_true_2 by done.
  rewrite bool_decide_eq_true_2 by (simpl; lia).
  cbn [andb JsMap.values fmap list_fmap snd lookup list_lookup].
  assert (Hin : (k, newHost) ∈ Room.players room).
  { apply (JsMap_elem_of_delete socketId). rewrite Hdel. left. }
  rewrite (Hkeyed k newHost Hin).
  assert (Hk : k ∈ filter (λ k', k' ≠ socketId)
                     (JsMap.keys (Room.players room))).
  { rewrite <- Hkeys. left. }
  apply list_elem_of_filter in Hk as [Hne Hk].
  eexists _, k. split; [reflexivity|].
  cbn [Room.players Room.with_hostSocketId Room.with_teams
       Room.with_players Room.hostSocketId fst].
  rewrite lookup_insert_eq. done.
Qed.

Lemma removePlayerFromRoom_host_transfer_witness :
  Sample.roomsThree !! "ABC123" = Some Sample.roomTwoTeams
  ∧ 2 ≤ JsMap.size (Room.players Sample.roomTwoTeams)
  ∧ Room.hostSocketId Sample.roomTwoTeams = "s1"
  ∧ ∃ room' newHost,
      removePlayerFromRoom Sample.roomsThree "ABC123" "s1"
      = (<["ABC123" := room']> Sample.roomsThree,
         Normal (mkRemoveResult true false (Some room')))
      ∧ JsMap.keys (Room.players room')
        = filter (λ k, k ≠ "s1")
            (JsMap.keys (Room.players Sample.roomTwoTeams))
      ∧ head (JsMap.keys (Room.players room')) = Some newHost
      ∧ Room.hostSocketId room' = newHost
      ∧ newHost ∈ JsMap.keys (Room.players Sample.roomTwoTeams)
      ∧ newHost ≠ "s1"
      ∧ getRoom (fst (removePlayerFromRoom Sample.roomsThree "ABC123" "s1"))
          "ABC123" = Some room'.
Proof.
  split; [reflexivity|]. split; [simpl; lia|]. split; [reflexivity|].
  apply (removePlayerFromRoom_host_transfer Sample.roomsThree
           "ABC123" "s1" Sample.roomTwoTeams).
  - reflexivity.
  - apply (bool_decide_unpack _). vm_compute. exact I.
  - intros k p Hin. simpl in Hin.
    repeat (apply elem_of_cons in Hin as [[= -> ->]|Hin]; [reflexivity|]).
    by apply elem_of_nil in Hin.
  - simpl. lia.
  - reflexivity.
  - simpl. left.
Defined.



End Rooms.

(** ** Team assigner *)

Section Reassign.
Import TeamManager.


Lemma removeMember_not_elem_of (socketId : string) (team : Team.t) :
  NoDup (Team.players team) →
  socketId ∉ Team.players (removeMember socketId team).
Proof.
  intros Hnd. unfold removeMember, indexOf.
  destruct (list_find _ (Team.players team)) as [[i p]|] eqn:Hfind; simpl.
  - apply list_find_Some in Hfind as (Hi & -> & _).
    intros (j & Hj)%list_elem_of_lookup.
    destruct (decide (j < i)) as [Hlt|Hge].
    + rewrite list_lookup_delete_lt in Hj by done.
      pose proof (NoDup_lookup _ _ _ _ Hnd Hi Hj). lia.
    + rewrite list_lookup_delete_ge in Hj by lia.
      pose proof (NoDup_lookup _ _ _ _ Hnd Hi Hj). lia.
  - apply list_find_None in Hfind.
    intros Hin. by eapply Forall_forall in Hfind.
Qed.

Lemma removeMember_absent (socketId : string) (team : Team.t) :
  socketId ∉ Team.players team → removeMember socketId team = team.
Proof.
  intros Hnotin. unfold removeMember, indexOf.
  destruct (list_find _ (Team.players team)) as [[i p]|] eqn:Hfind; [|done].
  apply list_find_Some in Hfind as (Hi & -> & _).
  destruct Hnotin. by eapply list_elem_of_lookup_2.
Qed.


End Reassign.

Section Assign.
Import TeamManager.

Lemma insert_moves_out {A} (a : list A) (j : nat) (x y : A) :
  a !! j = Some y → y :: <[j := x]> a ≡ₚ x :: a.
Proof.
  revert j. induction a as [|h t IH]; intros [|j] Hj; simplify_eq/=.
  - apply Permutation_swap.
  - rewrite Permutation_swap. rewrite (IH j Hj). apply Permutation_swap.
Qed.

Lemma insert_insert_Permutation {A} (a : list A) (i j : nat) (x y : A) :
  a !! i = Some x → a !! j = Some y → <[j := x]> (<[i := y]> a) ≡ₚ a.
Proof.
  revert i j. induction a as [|h t IH]; intros [|i] [|j] Hi Hj;
    simplify_eq/=; try done.
  - by apply insert_moves_out.
  - by apply insert_moves_out.
  - f_equiv. by apply IH.
Qed.

Lemma swap_Permutation {A} (i j : nat) (a : list A) : swap i j a ≡ₚ a.
Proof.
  unfold swap. destruct (a !! i) as [x|] eqn:Hi; [|done].
  destruct (a !! j) as [y|] eqn:Hj; [|done].
  by apply insert_insert_Permutation.
Qed.

Lemma shuffleFrom_Permutation {A} (rnd : nat → nat) (i : nat) (a : list A) :
  shuffleFrom rnd i a ≡ₚ a.
Proof.
  revert a. induction i as [|i IH]; intros a; simpl; [done|].
  rewrite IH. apply swap_Permutation.
Qed.

Lemma shuffleArray_Permutation {A} (rnd : nat → nat) (a : list A) :
  shuffleArray rnd a ≡ₚ a.
Proof. apply shuffleFrom_Permutation. Qed.

Lemma roundRobinSize_0 (T i : nat) : roundRobinSize T 0 i = 0.
Proof.
  unfold roundRobinSize. rewrite Nat.Div0.div_0_l, Nat.Div0.mod_0_l.
  by rewrite decide_False by lia.
Qed.

Lemma roundRobinSize_S (T n i : nat) :
  i < T →
  roundRobinSize T (S n) i
  = roundRobinSize T n i + (if decide (i = n mod T) then 1 else 0).
Proof.
  intros Hi. unfold roundRobinSize.
  assert (HT : T ≠ 0) by lia.
  pose proof (Nat.div_mod_eq n T) as Hn.
  pose proof (Nat.mod_upper_bound n T HT) as Hr.
  set (q := n / T) in *. set (r := n mod T) in *.
  destruct (decide (r + 1 < T)) as [Hlt|Hge].
  - assert (Hq : S n / T = q).
    { symmetry. apply (Nat.div_unique _ _ _ (r + 1)); lia. }
    assert (Hm : S n mod T = r + 1).
    { symmetry. apply (Nat.mod_unique _ _ q); lia. }
    rewrite Hq, Hm. repeat case_decide; lia.
  - assert (Hq : S n / T = q + 1).
    { symmetry. apply (Nat.div_unique _ _ _ 0); lia. }
    assert (Hm : S n mod T = 0).
    { symmetry. apply (Nat.mod_unique _ _ (q + 1)); lia. }
    rewrite Hq, Hm. repeat case_decide; lia.
Qed.

Lemma roundRobinSize_bounds (T n i : nat) :
  n / T ≤ roundRobinSize T n i ≤ n / T + 1.
Proof. unfold roundRobinSize. case_decide; lia. Qed.

Lemma elem_of_insert_inv {A} (l : list A) (i : nat) (x y : A) :
  y ∈ <[i := x]> l → y = x ∨ y ∈ l.
Proof.
  intros (j & Hj)%list_elem_of_lookup.
  apply list_lookup_insert_Some in Hj as [(-> & -> & _)|(_ & Hj)]; [by left|].
  right. by eapply list_elem_of_lookup_2.
Qed.

Lemma allMembers_push (teams : list Team.t) (k : nat) (team : Team.t)
    (socketId : string) :
  teams !! k = Some team →
  allMembers
    (<[k := Team.with_players (Team.players team ++ [socketId]) team]> teams)
  ≡ₚ socketId :: allMembers teams.
Proof.
  unfold allMembers. revert k.
  induction teams as [|t ts IH]; intros [|k] Hk; simplify_eq/=.
  - rewrite <- app_assoc. simpl.
    rewrite (Permutation_app_comm (Team.players team)). simpl.
    f_equiv. apply Permutation_app_comm.
  - rewrite (IH k Hk). by rewrite Permutation_middle.
Qed.

Lemma sum_teamSizes (teams : list Team.t) :
  sum_list (teamSizes teams) = length (allMembers teams).
Proof.
  unfold teamSizes, allMembers.
  induction teams as [|t ts IH]; [done|].
  rewrite !fmap_cons. cbn [concat]. rewrite length_app, <- IH. reflexivity.
Qed.

Lemma setPlayerTeam_lookup (registry : Registry) (socketId s : string)
    (teamId : option nat) :
  PlayerManager.getPlayer
    (PlayerManager.setPlayerTeam registry socketId teamId) s
  = if decide (s = socketId)
    then Player.with_teamId teamId <$> PlayerManager.getPlayer registry s
    else PlayerManager.getPlayer registry s.
Proof.
  unfold PlayerManager.setPlayerTeam, PlayerManager.getPlayer.
  destruct (registry !! socketId) as [p|] eqn:Hp.
  - rewrite lookup_insert. case_decide; case_decide; subst; try done.
    by rewrite Hp.
  - case_decide; [subst; by rewrite Hp|done].
Qed.

Lemma setPlayerTeam_is_Some (registry : Registry) (socketId s : string)
    (teamId : option nat) :
  is_Some (PlayerManager.getPlayer
             (PlayerManager.setPlayerTeam registry socketId teamId) s)
  ↔ is_Some (PlayerManager.getPlayer registry s).
Proof.
  rewrite setPlayerTeam_lookup. case_decide; [|done].
  by rewrite fmap_is_Some.
Qed.

(** The loop of [assignPlayersToTeams] from position [index] on, over a
    non-empty team list whose sizes are those of a round-robin deal of
    [index] players: it does not throw, deals the remaining players round
    robin and records each one's team in the registry. *)
Lemma distribute_spec (shuffled : list Player.t) :
  ∀ (index : nat) (teams : list Team.t) (registry : Registry),
    teams ≠ [] →
    NoDup (Player.socketId <$> shuffled) →
    (∀ team s, team ∈ teams → s ∈ Team.players team →
               s ∉ Player.socketId <$> shuffled) →
    (∀ i team, teams !! i = Some team →
               Team.size team = roundRobinSize (length teams) index i) →
    recorded teams registry →
    ∃ teams' registry',
      distribute index shuffled teams registry = (teams', registry', Normal ())
      ∧ Team.id <$> teams' = Team.id <$> teams
      ∧ (∀ i team, teams' !! i = Some team →
           Team.size team
           = roundRobinSize (length teams) (index + length shuffled) i)
      ∧ recorded teams' registry'
      ∧ allMembers teams' ≡ₚ allMembers teams ++ (Player.socketId <$> shuffled)
      ∧ (∀ s, is_Some (PlayerManager.getPlayer registry' s)
              ↔ is_Some (PlayerManager.getPlayer registry s)).
Proof.
  induction shuffled as [|player rest IH];
    intros index teams registry Hne Hnd Hfresh Hsizes Hrec.
  { exists teams, registry. simpl. rewrite Nat.add_0_r, app_nil_r. done. }
  assert (HT : length teams ≠ 0) by (by destruct teams).
  cbn [distribute]. unfold jsMod. rewrite decide_False by done.
  destruct (lookup_lt_is_Some_2 teams (index mod length teams))
    as [team Hteam]; [by apply Nat.mod_upper_bound|].
  rewrite Hteam.
  set (s0 := Player.socketId player).
  set (team' := Team.with_players (Team.players team ++ [s0]) team).
  set (teams1 := <[index mod length teams := team']> teams).
  set (registry1 :=
         PlayerManager.setPlayerTeam registry s0 (Some (Team.id team))).
  rewrite fmap_cons in Hnd, Hfresh. fold s0 in Hnd, Hfresh.
  apply NoDup_cons in Hnd as [Hs0 Hnd].
  assert (Hteam_in : team ∈ teams) by (by eapply list_elem_of_lookup_2).
  assert (Hlen1 : length teams1 = length teams) by apply length_insert.
  destruct (IH (S index) teams1 registry1)
    as (teams' & registry' & Hrun & Hids & Hsz & Hrec' & Hperm & Hdom).
  - intros Hnil. rewrite Hnil in Hlen1. simpl in Hlen1. lia.
  - done.
  - intros t s [->|Hin]%elem_of_insert_inv Hs.
    + cbn [team' Team.players Team.with_players] in Hs.
      apply elem_of_app in Hs as [Hs|Hs%list_elem_of_singleton].
      * by apply (Hfresh team s Hteam_in) in Hs as [_ ?]%not_elem_of_cons.
      * by subst.
    + by apply (Hfresh t s Hin) in Hs as [_ ?]%not_elem_of_cons.
  - intros i t Hi. rewrite Hlen1.
    rewrite roundRobinSize_S
      by (apply lookup_lt_Some in Hi; by rewrite Hlen1 in Hi).
    apply list_lookup_insert_Some in Hi as [(<- & <- & _)|(Hneq & Hi)].
    + rewrite decide_True by done. rewrite <- (Hsizes _ _ Hteam).
      unfold Team.size. cbn [team' Team.players Team.with_players].
      rewrite length_app. simpl. lia.
    + rewrite decide_False by done. rewrite <- (Hsizes _ _ Hi). lia.
  - intros t s p Ht Hs Hp. unfold registry1 in Hp.
    rewrite setPlayerTeam_lookup in Hp.
    apply elem_of_insert_inv in Ht as [->|Ht].
    + case_decide as Hseq.
      * destruct (PlayerManager.getPlayer registry s); simplify_eq/=. done.
      * cbn [team' Team.players Team.with_players] in Hs.
        apply elem_of_app in Hs as [Hs|Hs%list_elem_of_singleton]; [|done].
        by apply (Hrec team s p).
    + case_decide as Hseq.
      * subst s. destruct (Hfresh t s0 Ht Hs). left.
      * by apply (Hrec t s p).
  - exists teams', registry'. split; [done|]. split; [|split; [|split; [done|split]]].
    + rewrite Hids. unfold teams1. rewrite list_fmap_insert.
      apply list_insert_id. by rewrite list_lookup_fmap, Hteam.
    + intros i t Hi. rewrite (Hsz i t Hi), Hlen1. f_equal. simpl. lia.
    + rewrite Hperm. unfold teams1, team'.
      rewrite (allMembers_push _ _ _ _ Hteam). simpl.
      by rewrite Permutation_middle.
    + intros s. rewrite Hdom. apply setPlayerTeam_is_Some.
Qed.
End Assign.

Section Sorting.
Import TeamManager.
Context {A : Type} (key : A → nat).

Lemma insertBy_Permutation (x : A) (l : list A) : insertBy key x l ≡ₚ x :: l.
Proof.
  induction l as [|y l IH]; simpl; [done|].
  case_decide; [done|]. rewrite IH. apply Permutation_swap.
Qed.

Lemma stableSortBy_Permutation (l : list A) : stableSortBy key l ≡ₚ l.
Proof.
  unfold stableSortBy. induction l as [|x l IH]; simpl; [done|].
  by rewrite insertBy_Permutation, IH.
Qed.

Lemma insertBy_sorted (x : A) (l : list A) :
  StronglySorted (λ a b, key a ≤ key b) l →
  StronglySorted (λ a b, key a ≤ key b) (insertBy key x l).
Proof.
  induction 1 as [|y l Hsorted IH Hall]; simpl.
  - repeat constructor.
  - case_decide as Hle.
    + constructor; [by constructor|]. constructor; [done|].
      eapply Forall_impl; [exact Hall|]. simpl. lia.
    + constructor; [done|].
      rewrite insertBy_Permutation. constructor; [lia|done].
Qed.

Lemma stableSortBy_sorted (l : list A) :
  StronglySorted (λ a b, key a ≤ key b) (stableSortBy key l).
Proof.
  unfold stableSortBy. induction l as [|x l IH]; simpl; [constructor|].
  by apply insertBy_sorted.
Qed.

Lemma sorted_head_least (l : list A) (x : A) :
  StronglySorted (λ a b, key a ≤ key b) l →
  head l = Some x → ∀ y, y ∈ l → key x ≤ key y.
Proof.
  destruct 1 as [|a l _ Hall]; simpl; [done|].
  intros [= ->] y [->|Hy]%elem_of_cons; [done|].
  by eapply Forall_forall in Hall.
Qed.

Lemma sorted_last_greatest (l : list A) (x : A) :
  StronglySorted (λ a b, key a ≤ key b) l →
  last l = Some x → ∀ y, y ∈ l → key y ≤ key x.
Proof.
  induction 1 as [|a l Hsorted IH Hall]; [done|].
  destruct l as [|b l'].
  - simpl. intros [= ->] y ->%list_elem_of_singleton. done.
  - rewrite last_cons_cons. intros Hlast y [->|Hy]%elem_of_cons.
    + eapply Forall_forall in Hall; [exact Hall|].
      by apply last_Some_elem_of.
    + by apply IH.
Qed.
End Sorting.

Section MinMax.
Import TeamManager.

Lemma minSize_cons (n : nat) (ns : list nat) :
  ns ≠ [] → minSize (n :: ns) = n `min` minSize ns.
Proof.
  destruct ns as [|m ns]; [done|]. intros _. simpl.
  revert n m. induction ns as [|k ns IH]; intros n m; simpl; [lia|].
  pose proof (IH n m). lia.
Qed.

Lemma minSize_le (n : nat) (ns : list nat) : n ∈ ns → minSize ns ≤ n.
Proof.
  induction ns as [|m ns IH]; [by intros ?%elem_of_nil|].
  destruct (decide (ns = [])) as [->|Hne].
  - intros ->%list_elem_of_singleton. done.
  - rewrite minSize_cons by done.
    intros [->|Hin]%elem_of_cons; [lia|]. apply IH in Hin. lia.
Qed.

Lemma minSize_elem_of (ns : list nat) : ns ≠ [] → minSize ns ∈ ns.
Proof.
  induction ns as [|m ns IH]; [done|]. intros _.
  destruct (decide (ns = [])) as [->|Hne]; [left|].
  rewrite minSize_cons by done.
  destruct (Nat.min_spec m (minSize ns)) as [[_ ->]|[_ ->]]; [left|].
  right. by apply IH.
Qed.

Lemma minSize_unique (n : nat) (ns : list nat) :
  n ∈ ns → (∀ m, m ∈ ns → n ≤ m) → minSize ns = n.
Proof.
  intros Hin Hleast. apply Nat.le_antisymm; [by apply minSize_le|].
  apply Hleast, minSize_elem_of. by destruct ns; [apply elem_of_nil in Hin|].
Qed.

Lemma maxSize_unique (n : nat) (ns : list nat) :
  n ∈ ns → (∀ m, m ∈ ns → m ≤ n) → maxSize ns = n.
Proof.
  intros Hin Hgreatest. unfold maxSize.
  apply Nat.le_antisymm; [|by apply max_list_elem_of_le].
  apply Hgreatest, max_list_elem_of. by destruct ns; [apply elem_of_nil in Hin|].
Qed.

Lemma minSize_le_maxSize (ns : list nat) : ns ≠ [] → minSize ns ≤ maxSize ns.
Proof.
  intros Hne. apply max_list_elem_of_le. by apply minSize_elem_of.
Qed.

Lemma sizes_between (q : nat) (ns : list nat) :
  ns ≠ [] →
  (∀ n, n ∈ ns → q ≤ n ≤ q + 1) →
  q ≤ minSize ns ∧ maxSize ns ≤ q + 1.
Proof.
  intros Hne Hall. split.
  - apply Hall. by apply minSize_elem_of.
  - apply Hall. by apply max_list_elem_of.
Qed.

Lemma elem_of_teamSizes (teams : list Team.t) (n : nat) :
  n ∈ teamSizes teams ↔ ∃ i team, teams !! i = Some team ∧ Team.size team = n.
Proof.
  unfold teamSizes. rewrite list_elem_of_fmap. split.
  - intros (team & -> & (i & Hi)%list_elem_of_lookup). eauto.
  - intros (i & team & Hi & <-). exists team. split; [done|].
    by eapply list_elem_of_lookup_2.
Qed.

Lemma elem_of_indexed (teams : list Team.t) (i : nat) (team : Team.t) :
  (i, team) ∈ indexed teams ↔ teams !! i = Some team.
Proof.
  unfold indexed. rewrite list_elem_of_lookup. split.
  - intros (j & Hj). apply list_lookup_imap_Some in Hj as (t & Hj & [= -> ->]).
    done.
  - intros Hi. exists i. apply list_lookup_imap_Some. eauto.
Qed.
End MinMax.

Section Balance.
Import TeamManager.

Lemma pop_snoc (remaining : list string) (p : string) :
  pop (remaining ++ [p]) = Some (remaining, p).
Proof. unfold pop. by rewrite last_snoc, removelast_last. Qed.

Lemma sum_list_with_insert {A} (f : A → nat) (l : list A) (i : nat) (x y : A) :
  l !! i = Some x →
  sum_list_with f (<[i := y]> l) + f x = sum_list_with f l + f y.
Proof.
  revert i. induction l as [|h t IH]; intros [|i] Hi; simplify_eq/=; [lia|].
  specialize (IH i Hi). lia.
Qed.

Lemma sum_list_teamSizes (teams : list Team.t) :
  sum_list (teamSizes teams) = sum_list_with Team.size teams.
Proof.
  unfold teamSizes. induction teams as [|t ts IH]; [done|].
  rewrite fmap_cons. simpl. by rewrite <- IH.
Qed.

(** The first and the last element of the sorted array are a smallest and a
    largest team, and the call either finds them at most one apart or moves
    the last member of the largest to the smallest. *)
Lemma nextMove_cases (teams : list Team.t) :
  teams ≠ [] →
  ∃ smallestIndex smallestTeam largestIndex largestTeam,
    teams !! smallestIndex = Some smallestTeam
    ∧ teams !! largestIndex = Some largestTeam
    ∧ Team.size smallestTeam = minSize (teamSizes teams)
    ∧ Team.size largestTeam = maxSize (teamSizes teams)
    ∧ ((Team.size largestTeam ≤ Team.size smallestTeam + 1
        ∧ nextMove teams = Balanced)
       ∨ (Team.size smallestTeam + 2 ≤ Team.size largestTeam
          ∧ ∃ remaining playerToMove,
              Team.players largestTeam = remaining ++ [playerToMove]
              ∧ nextMove teams
                = Moved
                    (<[smallestIndex :=
                         Team.with_players
                           (Team.players smallestTeam ++ [playerToMove])
                           smallestTeam]>
                       (<[largestIndex :=
                            Team.with_players remaining largestTeam]> teams))
                    playerToMove (Team.id smallestTeam))).
Proof.
  intros Hne. unfold nextMove.
  set (key := λ it : nat * Team.t, Team.size it.2).
  pose proof (stableSortBy_Permutation key (indexed teams)) as Hperm.
  pose proof (stableSortBy_sorted key (indexed teams)) as Hsorted.
  set (sortedTeams := stableSortBy key (indexed teams)) in *.
  assert (Hsne : sortedTeams ≠ []).
  { intros Hnil. rewrite Hnil in Hperm.
    apply Permutation_nil_l in Hperm. unfold indexed in Hperm.
    apply (f_equal length) in Hperm. rewrite length_imap in Hperm.
    by destruct teams. }
  destruct (head sortedTeams) as [[si st]|] eqn:Hhead;
    [|by destruct sortedTeams].
  destruct (last sortedTeams) as [[li lt]|] eqn:Hlast;
    [|by apply last_is_Some in Hsne as [? ?]; simplify_eq].
  assert (Hsi : teams !! si = Some st).
  { apply elem_of_indexed. rewrite <- Hperm. by apply head_Some_elem_of. }
  assert (Hli : teams !! li = Some lt).
  { apply elem_of_indexed. rewrite <- Hperm. by apply last_Some_elem_of. }
  assert (Hmin : Team.size st = minSize (teamSizes teams)).
  { symmetry. apply minSize_unique.
    - apply elem_of_teamSizes. eauto.
    - intros m (i & t & Hi & <-)%elem_of_teamSizes.
      apply (sorted_head_least key sortedTeams (si, st) Hsorted Hhead (i, t)).
      rewrite Hperm. by apply elem_of_indexed. }
  assert (Hmax : Team.size lt = maxSize (teamSizes teams)).
  { symmetry. apply maxSize_unique.
    - apply elem_of_teamSizes. eauto.
    - intros m (i & t & Hi & <-)%elem_of_teamSizes.
      apply (sorted_last_greatest key sortedTeams (li, lt) Hsorted Hlast (i, t)).
      rewrite Hperm. by apply elem_of_indexed. }
  exists si, st, li, lt. do 4 (split; [done|]).
  destruct (decide (Team.size st + 2 ≤ Team.size lt)) as [Hgap|Hclose].
  - right. split; [done|].
    assert (Hpl : Team.players lt ≠ []).
    { unfold Team.size in Hgap. intros Hnil. rewrite Hnil in Hgap.
      simpl in Hgap. lia. }
    apply last_is_Some in Hpl as [p Hp].
    apply last_Some in Hp as [remaining Hp].
    exists remaining, p. split; [done|].
    rewrite decide_True by lia. rewrite decide_True by lia.
    by rewrite Hp, pop_snoc.
  - left. split; [lia|].
    case_decide; [|done]. by rewrite decide_False by lia.
Qed.

Lemma nextMove_nil : nextMove [] = NoTeams.
Proof. reflexivity. Qed.

Lemma nextMove_Balanced (teams : list Team.t) :
  nextMove teams = Balanced →
  teams ≠ [] ∧ maxSize (teamSizes teams) ≤ minSize (teamSizes teams) + 1.
Proof.
  intros Hnm. destruct (decide (teams = [])) as [->|Hne]; [done|].
  split; [done|].
  destruct (nextMove_cases teams Hne)
    as (si & st & li & lt & _ & _ & <- & <- & [[Hle _]|(_ & ? & ? & _ & Hm)]);
    [done|congruence].
Qed.

(** What a move does to the sizes: the squares lose at least 2, the total
    stays, and no size leaves the range between the old minimum and the old
    maximum. *)
Lemma move_properties (teams : list Team.t) (si li : nat) (st lt : Team.t)
    (remaining : list string) (p : string) :
  teams !! si = Some st →
  teams !! li = Some lt →
  Team.size st = minSize (teamSizes teams) →
  Team.size lt = maxSize (teamSizes teams) →
  Team.size st + 2 ≤ Team.size lt →
  Team.players lt = remaining ++ [p] →
  let teams' :=
    <[si := Team.with_players (Team.players st ++ [p]) st]>
      (<[li := Team.with_players remaining lt]> teams) in
  teams' ≠ []
  ∧ Team.id <$> teams' = Team.id <$> teams
  ∧ sumSquares teams' + 2 ≤ sumSquares teams
  ∧ sum_list (teamSizes teams') = sum_list (teamSizes teams)
  ∧ minSize (teamSizes teams) ≤ minSize (teamSizes teams')
  ∧ maxSize (teamSizes teams') ≤ maxSize (teamSizes teams).
Proof.
  intros Hsi Hli Hmin Hmax Hgap Hpl teams'.
  assert (Hne : si ≠ li) by (intros ->; simplify_eq; lia).
  set (st' := Team.with_players (Team.players st ++ [p]) st) in *.
  set (lt' := Team.with_players remaining lt) in *.
  assert (Hsi1 : <[li := lt']> teams !! si = Some st)
    by (by rewrite list_lookup_insert_ne).
  assert (Hst' : Team.size st' = Team.size st + 1).
  { unfold Team.size, st'. simpl. rewrite length_app. simpl. lia. }
  assert (Hlt' : Team.size lt' + 1 = Team.size lt).
  { unfold Team.size, lt'. simpl. rewrite Hpl, length_app. simpl. lia. }
  assert (Hlen : length teams' = length teams)
    by (unfold teams'; by rewrite !length_insert).
  assert (Hne' : teams' ≠ []).
  { intros Hnil. rewrite Hnil in Hlen. apply lookup_lt_Some in Hsi.
    simpl in Hlen. lia. }
  assert (Hrange : ∀ n, n ∈ teamSizes teams' →
            minSize (teamSizes teams) ≤ n ≤ maxSize (teamSizes teams)).
  { intros n (i & t & Hi & <-)%elem_of_teamSizes. unfold teams' in Hi.
    apply list_lookup_insert_Some in Hi as [(-> & <- & _)|(_ & Hi)]; [lia|].
    apply list_lookup_insert_Some in Hi as [(-> & <- & _)|(_ & Hi)]; [lia|].
    assert (Hin : Team.size t ∈ teamSizes teams)
      by (apply elem_of_teamSizes; eauto).
    split; [by apply minSize_le|by apply max_list_elem_of_le]. }
  split; [done|]. split; [|split; [|split; [|split]]].
  - unfold teams'. rewrite !list_fmap_insert.
    rewrite (list_insert_id _ li) by (by rewrite list_lookup_fmap, Hli).
    apply list_insert_id. by rewrite list_lookup_fmap, Hsi.
  - unfold sumSquares, teams'.
    pose proof (sum_list_with_insert (λ t, Team.size t * Team.size t)
                  _ _ _ st' Hsi1) as H1.
    pose proof (sum_list_with_insert (λ t, Team.size t * Team.size t)
                  _ _ _ lt' Hli) as H2.
    simpl in H1, H2. nia.
  - rewrite !sum_list_teamSizes. unfold teams'.
    pose proof (sum_list_with_insert Team.size _ _ _ st' Hsi1) as H1.
    pose proof (sum_list_with_insert Team.size _ _ _ lt' Hli) as H2.
    lia.
  - apply Hrange, minSize_elem_of. unfold teamSizes.
    intros Hnil%fmap_nil_inv. done.
  - apply Hrange, max_list_elem_of. unfold teamSizes.
    intros Hnil%fmap_nil_inv. done.
Qed.

(** [balanceTeams] returns after at most [k] moves when the squared sizes
    sum to at most [2 k + 1]. *)
Lemma balanceTeams_within (k : nat) :
  ∀ (teams : list Team.t) (registry : Registry),
    teams ≠ [] →
    sumSquares teams ≤ 2 * k + 1 →
    ∃ moves teams' registry',
      moves ≤ k
      ∧ (∀ fuel, moves < fuel →
           balanceTeams fuel teams registry
           = Some (teams', registry', Normal ())
           ∧ balanceMoves fuel teams = Some moves)
      ∧ Team.id <$> teams' = Team.id <$> teams
      ∧ sum_list (teamSizes teams') = sum_list (teamSizes teams)
      ∧ maxSize (teamSizes teams') ≤ minSize (teamSizes teams') + 1.
Proof.
  induction k as [|k IH]; intros teams registry Hne Hsq;
    destruct (nextMove_cases teams Hne)
      as (si & st & li & lt & Hsi & Hli & Hmin & Hmax
          & [[Hle Hnm]|(Hgap & remaining & p & Hpl & Hnm)]).
  - exists 0, teams, registry. split; [done|]. split; [|split; [done|split; [done|lia]]].
    intros [|fuel] Hfuel; [lia|]. simpl. by rewrite Hnm.
  - destruct (move_properties teams si li st lt remaining p)
      as (_ & _ & Hdrop & _); try done. lia.
  - exists 0, teams, registry. split; [lia|]. split; [|split; [done|split; [done|lia]]].
    intros [|fuel] Hfuel; [lia|]. simpl. by rewrite Hnm.
  - destruct (move_properties teams si li st lt remaining p)
      as (Hne' & Hids & Hdrop & Hsum & _); try done.
    set (teams1 := <[si := _]> _) in *.
    destruct (IH teams1
                (PlayerManager.setPlayerTeam registry p (Some (Team.id st))))
      as (moves & teams' & registry' & Hmoves & Hrun & Hids' & Hsum' & Hbal);
      [done|lia|].
    exists (S moves), teams', registry'. split; [lia|].
    split; [|split; [congruence|split; [congruence|done]]].
    intros [|fuel] Hfuel; [lia|]. simpl. rewrite Hnm.
    destruct (Hrun fuel) as [-> ->]; [lia|]. done.
Qed.
End Balance.

Section TeamClaims.
Import TeamManager.

(** C2.  For every member map with distinct connection ids, every non-empty
    team list, every outcome of the shuffle and every registry,
    [assignPlayersToTeams] returns, and [balanceTeams] run on what it leaves
    returns at once and changes nothing.  The teams then hold exactly the
    connection ids of the players, so their sizes sum to the number of
    players; the largest and the smallest size differ by at most 1; and the
    registry record of every registered member of a team names that team's
    id. *)
Theorem assign_then_balance (rnd : nat → nat) (playersMap : JsMap.t Player.t)
    (teams : list Team.t) (registry : Registry) (fuel : nat) :
  teams ≠ [] →
  NoDup (Player.socketId <$> JsMap.values playersMap) →
  ∃ teams' registry',
    assignPlayersToTeams rnd playersMap teams registry
    = (teams', registry', Normal ())
    ∧ balanceTeams (S fuel) teams' registry'
      = Some (teams', registry', Normal ())
    ∧ Team.id <$> teams' = Team.id <$> teams
    ∧ sum_list (teamSizes teams') = JsMap.size playersMap
    ∧ minSize (teamSizes teams') ≤ maxSize (teamSizes teams')
    ∧ maxSize (teamSizes teams') - minSize (teamSizes teams') ≤ 1
    ∧ allMembers teams' ≡ₚ Player.socketId <$> JsMap.values playersMap
    ∧ recorded teams' registry'
    ∧ (∀ s, is_Some (PlayerManager.getPlayer registry' s)
            ↔ is_Some (PlayerManager.getPlayer registry s)).
Proof.
  intros Hne Hnd. unfold assignPlayersToTeams.
  set (shuffled := shuffleArray rnd (JsMap.values playersMap)).
  set (cleared := Team.with_players [] <$> teams).
  assert (Hshuffle : shuffled ≡ₚ JsMap.values playersMap)
    by apply shuffleArray_Permutation.
  assert (Hlen : length cleared = length teams) by apply length_fmap.
  assert (Hcne : cleared ≠ []).
  { intros Hnil. rewrite Hnil in Hlen. by destruct teams. }
  assert (Hempty : ∀ team, team ∈ cleared → Team.players team = []).
  { by intros team (t & -> & _)%list_elem_of_fmap. }
  destruct (distribute_spec shuffled 0 cleared registry)
    as (teams' & registry' & Hrun & Hids & Hsizes & Hrec & Hperm & Hdom).
  - done.
  - by rewrite Hshuffle.
  - intros team s Hin Hs. rewrite (Hempty team Hin) in Hs.
    by apply elem_of_nil in Hs.
  - intros i team Hi. rewrite roundRobinSize_0.
    unfold Team.size. rewrite (Hempty team); [done|].
    by eapply list_elem_of_lookup_2.
  - intros team s p Hin Hs. rewrite (Hempty team Hin) in Hs.
    by apply elem_of_nil in Hs.
  - assert (Hmembers : allMembers teams'
                       ≡ₚ Player.socketId <$> JsMap.values playersMap).
    { rewrite Hperm, <- Hshuffle.
      replace (allMembers cleared) with (@nil string); [done|].
      unfold allMembers. clear -Hempty.
      induction cleared as [|t ts IH]; [done|].
      rewrite fmap_cons. simpl. rewrite (Hempty t) by left. simpl.
      apply IH. intros team Hin. apply Hempty. by right. }
    assert (Hne' : teams' ≠ []).
    { intros Hnil. rewrite Hnil in Hids. symmetry in Hids.
      by apply fmap_nil_inv in Hids. }
    assert (Hsne : teamSizes teams' ≠ []).
    { unfold teamSizes. by intros ?%fmap_nil_inv. }
    set (q := length shuffled / length cleared).
    destruct (sizes_between q (teamSizes teams') Hsne) as [Hlo Hhi].
    { intros n (i & team & Hi & <-)%elem_of_teamSizes.
      rewrite (Hsizes i team Hi). apply roundRobinSize_bounds. }
    exists teams', registry'. split; [done|]. split.
    { simpl. destruct (nextMove_cases teams' Hne')
        as (si & st & li & lt & _ & _ & Hmin & Hmax
            & [[_ ->]|(Hgap & _)]); [done|lia]. }
    split.
    { rewrite Hids. unfold cleared. rewrite <- list_fmap_compose.
      by apply list_fmap_ext. }
    split.
    { rewrite sum_teamSizes, Hmembers. unfold JsMap.size, JsMap.values.
      by rewrite !length_fmap. }
    split; [by apply minSize_le_maxSize|].
    split; [lia|done].
Qed.

Lemma assign_then_balance_witness :
  Room.teams Sample.roomTwoTeams ≠ []
  ∧ NoDup (Player.socketId
             <$> JsMap.values (Room.players Sample.roomTwoTeams))
  ∧ ∃ teams' registry',
      assignPlayersToTeams (λ i, i) (Room.players Sample.roomTwoTeams)
        (Room.teams Sample.roomTwoTeams) Sample.registryTwoTeams
      = (teams', registry', Normal ())
      ∧ balanceTeams 1 teams' registry' = Some (teams', registry', Normal ())
      ∧ Team.id <$> teams' = Team.id <$> Room.teams Sample.roomTwoTeams
      ∧ sum_list (teamSizes teams')
        = JsMap.size (Room.players Sample.roomTwoTeams)
      ∧ minSize (teamSizes teams') ≤ maxSize (teamSizes teams')
      ∧ maxSize (teamSizes teams') - minSize (teamSizes teams') ≤ 1
      ∧ allMembers teams'
        ≡ₚ Player.socketId
             <$> JsMap.values (Room.players Sample.roomTwoTeams)
      ∧ recorded teams' registry'
      ∧ (∀ s, is_Some (PlayerManager.getPlayer registry' s)
              ↔ is_Some (PlayerManager.getPlayer Sample.registryTwoTeams s)).
Proof.
  assert (Hnd : NoDup (Player.socketId
                         <$> JsMap.values (Room.players Sample.roomTwoTeams))).
  { apply (bool_decide_unpack _). vm_compute. exact I. }
  split; [discriminate|]. split; [exact Hnd|].
  apply (assign_then_balance (λ i, i) (Room.players Sample.roomTwoTeams)
           (Room.teams Sample.roomTwoTeams) Sample.registryTwoTeams 0);
    [discriminate|exact Hnd].
Defined.

Lemma nextMove_two_teams (first second : Team.t) :
  Team.size first ≤ Team.size second →
  nextMove [first; second]
  = if decide (Team.size first + 1 < Team.size second) then
      match pop (Team.players second) with
      | Some (remaining, playerToMove) =>
          Moved [Team.with_players (Team.players first ++ [playerToMove]) first;
                 Team.with_players remaining second]
                playerToMove (Team.id first)
      | None => Balanced
      end
    else Balanced.
Proof.
  intros Hle. unfold nextMove, indexed, stableSortBy. simpl.
  rewrite decide_True by done. simpl.
  destruct (decide (Team.size first + 1 < Team.size second)).
  - by rewrite decide_True by lia.
  - by rewrite decide_False by lia.
Qed.

Lemma balanceMoves_two_teams (d : nat) :
  ∀ (a b : list string) (fuel : nat),
    length b = length a + 2 * d →
    d < fuel →
    balanceMoves fuel [Sample.team 0 "Red" a; Sample.team 1 "Blue" b] = Some d.
Proof.
  induction d as [|d IH]; intros a b [|fuel] Hlen Hfuel; try lia.
  - cbn [balanceMoves].
    rewrite nextMove_two_teams by (unfold Team.size; simpl; lia).
    rewrite decide_False by (unfold Team.size; simpl; lia). done.
  - cbn [balanceMoves].
    rewrite nextMove_two_teams by (unfold Team.size; simpl; lia).
    rewrite decide_True by (unfold Team.size; simpl; lia).
    assert (Hb : b ≠ []) by (intros ->; simpl in Hlen; lia).
    apply last_is_Some in Hb as [p Hp].
    apply last_Some in Hp as [b' ->].
    cbn [Sample.team Team.players]. rewrite pop_snoc.
    rewrite length_app in Hlen. simpl in Hlen.
    change (Team.with_players (a ++ [p]) (Sample.team 0 "Red" a))
      with (Sample.team 0 "Red" (a ++ [p])).
    change (Team.with_players b' (Sample.team 1 "Blue" (b' ++ [p])))
      with (Sample.team 1 "Blue" b').
    rewrite (IH (a ++ [p]) b' fuel); [done| |lia].
    rewrite length_app. simpl. lia.
Qed.

(** C9 (as stated, refuted).  With team sizes 0, 0, 3, 3 the first move
    leaves sizes 1, 0, 3, 2: the gap is 3 before and after it.  And no
    multiple of the team count bounds the number of moves: two teams of 0
    and [4 c + 2] members take [2 c + 1] moves. *)
Lemma balanceTeams_gap_counterexample :
  (∃ teams1 p teamId,
      nextMove Sample.teamsUneven = Moved teams1 p teamId
      ∧ teamSizes Sample.teamsUneven = [0; 0; 3; 3]
      ∧ teamSizes teams1 = [1; 0; 3; 2]
      ∧ sizeGap Sample.teamsUneven = 3
      ∧ sizeGap teams1 = 3)
  ∧ ¬ ∃ c, ∀ teams fuel moves,
        balanceMoves fuel teams = Some moves → moves ≤ c * length teams.
Proof.
  split.
  - eexists _, _, _. split; [by vm_compute|]. by vm_compute.
  - intros [c Hc].
    specialize (Hc (Sample.teamsLopsided (4 * c + 2)) (2 * c + 2) (2 * c + 1)).
    unfold Sample.teamsLopsided in Hc.
    rewrite (balanceMoves_two_teams (2 * c + 1)) in Hc.
    + specialize (Hc eq_refl). simpl in Hc. lia.
    + rewrite length_fmap, length_seq. simpl. lia.
    + lia.
Qed.

(** Reading [sortedTeams[0].players] of an empty team list throws. *)
Lemma balanceTeams_nil_throws (registry : Registry) (fuel : nat) :
  balanceTeams (S fuel) [] registry = Some ([], registry, Throw TypeError).
Proof. reflexivity. Qed.

(** C9 (amended).  On every non-empty team list [balanceTeams] returns,
    after a number of moves that is at most half the sum of the squared team
    sizes, with the same teams holding the same number of members and sizes
    at most 1 apart.  A call makes a move exactly when the gap exceeds 1; the
    move takes the last member of a largest team and appends it to a
    smallest team; it never widens the gap (it need not narrow it) and it
    lowers the sum of the squared sizes by at least 2. *)
Theorem balanceTeams_terminates (teams : list Team.t) (registry : Registry) :
  teams ≠ [] →
  (∃ moves teams' registry',
      2 * moves ≤ sumSquares teams
      ∧ (∀ fuel, moves < fuel →
           balanceTeams fuel teams registry
           = Some (teams', registry', Normal ())
           ∧ balanceMoves fuel teams = Some moves)
      ∧ Team.id <$> teams' = Team.id <$> teams
      ∧ sum_list (teamSizes teams') = sum_list (teamSizes teams)
      ∧ sizeGap teams' ≤ 1)
  ∧ (1 < sizeGap teams ↔ nextMove teams ≠ Balanced)
  ∧ (∀ teams1 playerToMove toTeamId,
       nextMove teams = Moved teams1 playerToMove toTeamId →
       (∃ smallestIndex smallestTeam largestIndex largestTeam remaining,
           teams !! smallestIndex = Some smallestTeam
           ∧ teams !! largestIndex = Some largestTeam
           ∧ Team.size smallestTeam = minSize (teamSizes teams)
           ∧ Team.size largestTeam = maxSize (teamSizes teams)
           ∧ Team.players largestTeam = remaining ++ [playerToMove]
           ∧ toTeamId = Team.id smallestTeam
           ∧ teams1
             = <[smallestIndex :=
                   Team.with_players
                     (Team.players smallestTeam ++ [playerToMove])
                     smallestTeam]>
                 (<[largestIndex := Team.with_players remaining largestTeam]>
                    teams))
       ∧ sizeGap teams1 ≤ sizeGap teams
       ∧ sumSquares teams1 + 2 ≤ sumSquares teams).
Proof.
  intros Hne. split; [|split].
  - destruct (balanceTeams_within (sumSquares teams / 2) teams registry Hne)
      as (moves & teams' & registry' & Hmoves & Hrun & Hids & Hsum & Hbal).
    { pose proof (Nat.div_mod_eq (sumSquares teams) 2).
      pose proof (Nat.mod_upper_bound (sumSquares teams) 2). lia. }
    exists moves, teams', registry'. split.
    { pose proof (Nat.div_mod_eq (sumSquares teams) 2). lia. }
    split; [done|]. split; [done|]. split; [done|].
    unfold sizeGap. lia.
  - unfold sizeGap.
    destruct (nextMove_cases teams Hne)
      as (si & st & li & lt & _ & _ & <- & <-
          & [[Hle ->]|(Hgap & ? & ? & _ & ->)]).
    + split; [lia|done].
    + split; [done|lia].
  - intros teams1 p tid Hnm.
    destruct (nextMove_cases teams Hne)
      as (si & st & li & lt & Hsi & Hli & Hmin & Hmax
          & [[_ Hb]|(Hgap & remaining & p' & Hpl & Hm)]); [congruence|].
    rewrite Hm in Hnm. injection Hnm as <- <- <-.
    destruct (move_properties teams si li st lt remaining p')
      as (_ & _ & Hdrop & _ & Hlo & Hhi); try done.
    split; [by exists si, st, li, lt, remaining|].
    split; [unfold sizeGap; lia|done].
Qed.

Lemma balanceTeams_terminates_witness :
  Sample.teamsUneven ≠ []
  ∧ ∃ moves teams' registry',
      2 * moves ≤ sumSquares Sample.teamsUneven
      ∧ (∀ fuel, moves < fuel →
           balanceTeams fuel Sample.teamsUneven Sample.registryOne
           = Some (teams', registry', Normal ())
           ∧ balanceMoves fuel Sample.teamsUneven = Some moves)
      ∧ Team.id <$> teams' = Team.id <$> Sample.teamsUneven
      ∧ sum_list (teamSizes teams') = sum_list (teamSizes Sample.teamsUneven)
      ∧ sizeGap teams' ≤ 1.
Proof.
  split; [discriminate|].
  apply (balanceTeams_terminates Sample.teamsUneven Sample.registryOne).
  discriminate.
Defined.
End TeamClaims.

(** * Further properties of the code *)

(** ** Turn coordinator *)

Section TurnMore.
Import TurnManager.

Lemma validateTurn_Valid_inv (players : Registry) (room : Room.t)
    (socketId : string) (teamId : nat) :
  validateTurn players room socketId = Valid teamId →
  Room.gameStarted room = true
  ∧ Room.turnLocked room = false
  ∧ ∃ currentTeam player,
      getCurrentTeam room = Some currentTeam
      ∧ PlayerManager.getPlayer players socketId = Some player
      ∧ Player.teamId player = Some (Team.id currentTeam)
      ∧ teamId = Team.id currentTeam.
Proof.
  unfold validateTurn.
  destruct (Room.gameStarted room); [|done].
  destruct (Room.turnLocked room); [done|]. simpl.
  destruct (getCurrentTeam room) as [currentTeam|]; [|done].
  destruct (PlayerManager.getPlayer players socketId) as [player|]; [|done].
  case_decide as Hteam; [done|].
  intros [= <-]. eauto 10.
Qed.

Lemma getCurrentTeam_Some_teams (room : Room.t) (team : Team.t) :
  getCurrentTeam room = Some team → Room.teams room ≠ [].
Proof. intros Hcur Hnil. by rewrite getCurrentTeam_nil in Hcur. Qed.

Lemma succ_mod_ne (k T : nat) : 2 ≤ T → S k mod T ≠ k mod T.
Proof.
  intros HT Heq.
  pose proof (Nat.div_mod_eq k T) as Hk.
  pose proof (Nat.div_mod_eq (S k) T) as HSk.
  rewrite Heq in HSk.
  assert (H1 : T * (S k / T) = T * (k / T) + 1) by lia.
  assert (Hle : k / T < S k / T) by nia.
  nia.
Qed.

(** [setTurn] followed by [getCurrentTeamId] gives the id back when a team
    has it, whatever the counter and the lock were, and the room is then
    unlocked; when no team has the id, [setTurn] changes nothing. *)
Theorem setTurn_then_getCurrentTeamId (room : Room.t) (teamId : nat) :
  ((∃ team, team ∈ Room.teams room ∧ Team.id team = teamId) →
   getCurrentTeamId (setTurn room teamId) = Some teamId
   ∧ Room.turnLocked (setTurn room teamId) = false
   ∧ Room.currentTurn (setTurn room teamId) < length (Room.teams room))
  ∧ ((∀ team, team ∈ Room.teams room → Team.id team ≠ teamId) →
     setTurn room teamId = room).
Proof.
  split.
  - intros (team & Hin & Hid).
    destruct (list_find_elem_of (λ t, Team.id t = teamId) _ _ Hin Hid)
      as [[i t] Hfind].
    assert (Hidx : findIndex teamId (Room.teams room) = Some i)
      by (unfold findIndex; by rewrite Hfind).
    destruct (findIndex_lt _ _ _ Hidx) as (t' & Hlook & Hid').
    pose proof (lookup_lt_Some _ _ _ Hlook) as Hlt.
    unfold setTurn. rewrite Hidx. split; [|done].
    unfold getCurrentTeamId, getCurrentTeam. simpl.
    rewrite decide_False by lia.
    rewrite Nat.mod_small by done. by rewrite Hlook, Hid'.
  - intros Habsent. unfold setTurn, findIndex.
    destruct (list_find _ _) as [[i t]|] eqn:Hfind; [|done].
    apply list_find_Some in Hfind as (Hlook & Hid & _).
    destruct (Habsent t); [|done]. by eapply list_elem_of_lookup_2.
Qed.

(** While the turn is locked every connection is rejected with the lock
    message, whatever its team; [lockTurn] and [unlockTurn] leave the current
    team alone, and unlocking gives back the verdicts of the unlocked
    room. *)
Theorem locked_room_rejects_everyone (players : Registry) (room : Room.t)
    (socketId : string) :
  Room.gameStarted room = true →
  validateTurn players (lockTurn room) socketId
  = Invalid "Turn is locked, please wait"
  ∧ isPlayerTurn players (lockTurn room) socketId = false
  ∧ getCurrentTeam (lockTurn room) = getCurrentTeam room
  ∧ getCurrentTeam (unlockTurn room) = getCurrentTeam room
  ∧ (Room.turnLocked room = false →
     validateTurn players (unlockTurn (lockTurn room)) socketId
     = validateTurn players room socketId).
Proof.
  intros Hs. unfold isPlayerTurn, validateTurn, lockTurn, unlockTurn. simpl.
  rewrite Hs. simpl. repeat split; try done.
  intros ->. done.
Qed.

Lemma locked_room_rejects_everyone_witness :
  Room.gameStarted Sample.roomTwoTeams = true
  ∧ validateTurn Sample.registryTwoTeams (lockTurn Sample.roomTwoTeams) "s2"
    = Invalid "Turn is locked, please wait".
Proof.
  split; [reflexivity|].
  apply (locked_room_rejects_everyone Sample.registryTwoTeams
           Sample.roomTwoTeams "s2"). reflexivity.
Defined.

(** With at least two teams of distinct ids, a player whose turn it is and
    who advances the turn is rejected right after: the next team is another
    one, and the verdict names it. *)
Theorem no_two_turns_in_a_row (players : Registry) (room : Room.t)
    (socketId : string) (teamId : nat) :
  validateTurn players room socketId = Valid teamId →
  2 ≤ length (Room.teams room) →
  NoDup (Team.id <$> Room.teams room) →
  ∃ nextTeam,
    snd (advanceTurn room)
    = Normal (Advanced nextTeam (Room.currentTurn room + 1))
    ∧ Team.id nextTeam ≠ teamId
    ∧ validateTurn players (fst (advanceTurn room)) socketId
      = Invalid ("Not your turn (waiting for " +:+ Team.name nextTeam +:+ ")")
    ∧ isPlayerTurn players (fst (advanceTurn room)) socketId = false.
Proof.
  intros (Hs & Hl & cur & p & Hcur & Hp & Hteam & ->)%validateTurn_Valid_inv
    HT Hnd.
  pose proof (getCurrentTeam_Some_teams _ _ Hcur) as Hne.
  rewrite getCurrentTeam_lookup in Hcur by done.
  destruct (advanceTurn_started room Hs Hne) as (nextTeam & Hnext & Hadv).
  assert (Hids : Team.id nextTeam ≠ Team.id cur).
  { intros Heq.
    apply (succ_mod_ne (Room.currentTurn room) (length (Room.teams room)) HT).
    apply (NoDup_lookup (Team.id <$> Room.teams room) _ _ (Team.id cur) Hnd).
    - by rewrite list_lookup_fmap, Hnext, <- Heq.
    - by rewrite list_lookup_fmap, Hcur. }
  assert (Hverdict :
    validateTurn players (fst (advanceTurn room)) socketId
    = Invalid ("Not your turn (waiting for " +:+ Team.name nextTeam +:+ ")")).
  { rewrite Hadv. unfold validateTurn. simpl. rewrite Hs. simpl.
    assert (Hcur' : getCurrentTeam
                      (Room.with_turnLocked false
                         (Room.with_currentTurn (S (Room.currentTurn room))
                            room)) = Some nextTeam).
    { rewrite getCurrentTeam_lookup by done. exact Hnext. }
    rewrite Hcur', Hp. rewrite decide_True; [done|].
    rewrite Hteam. intros [= Heq]. by apply Hids. }
  exists nextTeam. split; [|split; [done|split; [done|]]].
  - rewrite Hadv. simpl. do 2 f_equal. lia.
  - unfold isPlayerTurn. by rewrite Hverdict.
Qed.

Lemma no_two_turns_in_a_row_witness :
  validateTurn Sample.registryTwoTeams Sample.roomTwoTeams "s2" = Valid 1
  ∧ ∃ nextTeam,
      snd (advanceTurn Sample.roomTwoTeams)
      = Normal (Advanced nextTeam (Room.currentTurn Sample.roomTwoTeams + 1))
      ∧ Team.id nextTeam ≠ 1
      ∧ validateTurn Sample.registryTwoTeams
          (fst (advanceTurn Sample.roomTwoTeams)) "s2"
        = Invalid ("Not your turn (waiting for "
                     +:+ Team.name nextTeam +:+ ")")
      ∧ isPlayerTurn Sample.registryTwoTeams
          (fst (advanceTurn Sample.roomTwoTeams)) "s2" = false.
Proof.
  split; [by vm_compute|].
  apply (no_two_turns_in_a_row Sample.registryTwoTeams Sample.roomTwoTeams
           "s2" 1).
  - by vm_compute.
  - simpl. lia.
  - apply (bool_decide_unpack _). by vm_compute.
Defined.

(** Round robin is fair: in a started room every team of the list is the
    current team after fewer than [T] applications of [advanceTurn],
    wherever the counter stands. *)
Theorem every_team_gets_the_turn (room : Room.t) (team : Team.t) :
  Room.gameStarted room = true →
  team ∈ Room.teams room →
  ∃ n, n < length (Room.teams room)
       ∧ getCurrentTeam (advanceTurns n room) = Some team.
Proof.
  intros Hs (i & Hi)%list_elem_of_lookup.
  assert (Hne : Room.teams room ≠ []) by (by intros Hnil; rewrite Hnil in Hi).
  pose proof (lookup_lt_Some _ _ _ Hi) as Hlt.
  set (T := length (Room.teams room)) in *.
  set (k := Room.currentTurn room).
  assert (HT : T ≠ 0) by lia.
  pose proof (Nat.div_mod_eq k T) as Hk.
  pose proof (Nat.mod_upper_bound k T HT) as Hr.
  assert (Hn : ∃ n, n < T ∧ (k + n) mod T = i).
  { destruct (decide (k mod T ≤ i)).
    - exists (i - k mod T). split; [lia|].
      symmetry. apply (Nat.mod_unique _ _ (k / T)); lia.
    - exists (i + T - k mod T). split; [lia|].
      symmetry. apply (Nat.mod_unique _ _ (k / T + 1)); lia. }
  destruct Hn as (n & Hn & Hmod). exists n. split; [done|].
  destruct (advanceTurns_fields n room Hs Hne) as (Ht & _ & Hc).
  rewrite getCurrentTeam_lookup by (by rewrite Ht).
  rewrite Ht, Hc. fold T k. by rewrite Hmod.
Qed.

Lemma every_team_gets_the_turn_witness :
  Room.gameStarted Sample.roomTwoTeams = true
  ∧ Sample.team 0 "Red" ["s1"; "s3"] ∈ Room.teams Sample.roomTwoTeams
  ∧ ∃ n, n < length (Room.teams Sample.roomTwoTeams)
         ∧ getCurrentTeam (advanceTurns n Sample.roomTwoTeams)
           = Some (Sample.team 0 "Red" ["s1"; "s3"]).
Proof.
  assert (Hin : Sample.team 0 "Red" ["s1"; "s3"]
                ∈ Room.teams Sample.roomTwoTeams) by left.
  split; [reflexivity|]. split; [exact Hin|].
  apply (every_team_gets_the_turn Sample.roomTwoTeams _ eq_refl Hin).
Defined.

Lemma NoDup_fmap_elem_inj {A B} (f : A → B) (l : list A) (x y : A) :
  NoDup (f <$> l) → x ∈ l → y ∈ l → f x = f y → x = y.
Proof.
  intros Hnd (i & Hi)%list_elem_of_lookup (j & Hj)%list_elem_of_lookup Heq.
  assert (i = j) as ->.
  { apply (NoDup_lookup (f <$> l) i j (f x) Hnd).
    - by rewrite list_lookup_fmap, Hi.
    - by rewrite list_lookup_fmap, Hj, Heq. }
  congruence.
Qed.

(** When the registry names for every team member that team's id and the
    team ids are distinct, [isPlayerTurn] and [getActivePlayerIds] agree on
    every registered player who is in a team: in a started, unlocked room it
    is the player's turn exactly when the player is listed among the active
    ids. *)
Theorem isPlayerTurn_iff_active (players : Registry) (room : Room.t)
    (socketId : string) (player : Player.t) (ownTeam : Team.t) :
  Room.gameStarted room = true →
  Room.turnLocked room = false →
  PlayerManager.getPlayer players socketId = Some player →
  TeamManager.recorded (Room.teams room) players →
  NoDup (Team.id <$> Room.teams room) →
  ownTeam ∈ Room.teams room →
  socketId ∈ Team.players ownTeam →
  isPlayerTurn players room socketId = true
  ↔ socketId ∈ getActivePlayerIds room.
Proof.
  intros Hs Hl Hp Hrec Hnd Hown Hmember.
  assert (Hne : Room.teams room ≠ []).
  { intros Hnil. rewrite Hnil in Hown. by apply elem_of_nil in Hown. }
  destruct (getCurrentTeam_is_Some room Hne) as [cur Hcur].
  assert (Hcur_in : cur ∈ Room.teams room).
  { rewrite getCurrentTeam_lookup in Hcur by done.
    by eapply list_elem_of_lookup_2. }
  pose proof (Hrec ownTeam socketId player Hown Hmember Hp) as Hteam.
  unfold isPlayerTurn, getActivePlayerIds, validateTurn.
  rewrite Hs, Hl, Hcur, Hp. simpl. split.
  - case_decide as Hwrong; [done|]. intros _.
    rewrite Hteam in Hwrong. injection Hwrong as Hid.
    by rewrite <- (NoDup_fmap_elem_inj Team.id _ _ _ Hnd Hown Hcur_in Hid).
  - intros Hin. rewrite decide_False; [done|].
    intros Hwrong. apply Hwrong. by apply (Hrec cur socketId player).
Qed.

Lemma isPlayerTurn_iff_active_witness :
  TeamManager.recorded (Room.teams Sample.roomTwoTeams)
    Sample.registryTwoTeams
  ∧ (isPlayerTurn Sample.registryTwoTeams Sample.roomTwoTeams "s2" = true
     ↔ "s2" ∈ getActivePlayerIds Sample.roomTwoTeams).
Proof.
  assert (Hrec : TeamManager.recorded (Room.teams Sample.roomTwoTeams)
                   Sample.registryTwoTeams).
  { intros team s p Hin Hs Hp. simpl in Hin.
    repeat (apply elem_of_cons in Hin as [->|Hin];
            [simpl in Hs;
             repeat (apply elem_of_cons in Hs as [->|Hs];
                     [vm_compute in Hp; by injection Hp as <-|]);
             by apply elem_of_nil in Hs|]).
    by apply elem_of_nil in Hin. }
  split; [exact Hrec|].
  apply (isPlayerTurn_iff_active Sample.registryTwoTeams Sample.roomTwoTeams
           "s2" (Sample.player "s2" (Some 1)) (Sample.team 1 "Blue" ["s2"]));
    try reflexivity; try exact Hrec.
  - apply (bool_decide_unpack _). by vm_compute.
  - right. left.
  - left.
Defined.
End TurnMore.

(** ** Player registry *)

Section PlayersMore.
Import PlayerManager.

Lemma applyUpdate_alter (update : Update) (players : Registry)
    (socketId : string) :
  applyUpdate update players socketId
  = alter (updated update) socketId players.
Proof.
  apply map_eq. intros s. rewrite lookup_alter.
  destruct update; simpl;
    unfold setPlayerRoom, setPlayerTeam, disconnectPlayer, setPlayerUsername,
      getPlayer;
    destruct (players !! socketId) as [p|] eqn:Hp;
    rewrite ?lookup_insert; case_decide; subst; by rewrite ?Hp.
Qed.

(** [setPlayerRoom], [setPlayerTeam], [disconnectPlayer] and
    [setPlayerUsername] never add or remove a registry entry: on an unknown
    connection id they do nothing, and on a known one they change the record
    of that connection only, whose player id, connection id and connection
    time stay as they are. *)
Theorem registry_update_frame (update : Update) (players : Registry)
    (socketId : string) :
  dom (applyUpdate update players socketId) = dom players
  ∧ (getPlayer players socketId = None →
     applyUpdate update players socketId = players)
  ∧ (∀ other, other ≠ socketId →
       getPlayer (applyUpdate update players socketId) other
       = getPlayer players other)
  ∧ (∀ player, getPlayer players socketId = Some player →
       getPlayer (applyUpdate update players socketId) socketId
       = Some (updated update player)
       ∧ Player.id (updated update player) = Player.id player
       ∧ Player.socketId (updated update player) = Player.socketId player
       ∧ Player.connectedAt (updated update player)
         = Player.connectedAt player).
Proof.
  rewrite applyUpdate_alter. unfold getPlayer.
  split; [apply dom_alter_L|]. split; [|split].
  - intros Hnone. apply map_eq. intros s. rewrite lookup_alter.
    case_decide; subst; by rewrite ?Hnone.
  - intros other Hne. rewrite lookup_alter. by rewrite decide_False.
  - intros player Hp. rewrite lookup_alter, decide_True, Hp by done.
    by destruct update.
Qed.

Lemma size_lookup_Some {A} (m : gmap string A) (i : string) (x : A) :
  m !! i = Some x → size m = S (size (delete i m)).
Proof.
  intros Hi. rewrite <- (insert_id m i x Hi) at 1.
  rewrite <- insert_delete_eq.
  apply map_size_insert_None, lookup_delete_eq.
Qed.

(** [removePlayer] is final and local: the connection id resolves to nothing
    afterwards, every other entry is as before, an unknown connection id
    changes nothing, and removing a connection that was just created on a
    free connection id gives the registry back. *)
Theorem removePlayer_forgets (players : Registry) (socketId : string) :
  getPlayer (removePlayer players socketId) socketId = None
  ∧ (∀ other, other ≠ socketId →
       getPlayer (removePlayer players socketId) other
       = getPlayer players other)
  ∧ (getPlayer players socketId = None →
     removePlayer players socketId = players
     ∧ ∀ newId suffixSource now username,
         removePlayer
           (fst (createPlayer newId suffixSource now players socketId
                   username))
           socketId
         = players).
Proof.
  unfold removePlayer, getPlayer. split; [|split].
  - destruct (players !! socketId) eqn:Hp; [apply lookup_delete_eq|done].
  - intros other Hne.
    destruct (players !! socketId); [by apply lookup_delete_ne|done].
  - intros Hnone. rewrite Hnone. split; [done|].
    intros newId suffixSource now username. unfold createPlayer. cbn [fst].
    rewrite lookup_insert_eq. by apply delete_insert_id.
Qed.

(** The count of connected players follows the registry: registering a free
    connection id adds one, registering again a connection that is connected
    adds nothing, and disconnecting or removing a connected player takes one
    away. *)
Theorem getPlayerCount_follows (players : Registry) (socketId : string) :
  (getPlayer players socketId = None →
   ∀ newId suffixSource now username,
     getPlayerCount
       (fst (createPlayer newId suffixSource now players socketId username))
     = S (getPlayerCount players))
  ∧ (∀ player,
       getPlayer players socketId = Some player →
       Player.isConnected player = true →
       (∀ newId suffixSource now username,
          getPlayerCount
            (fst (createPlayer newId suffixSource now players socketId
                    username))
          = getPlayerCount players)
       ∧ S (getPlayerCount (disconnectPlayer players socketId))
         = getPlayerCount players
       ∧ S (getPlayerCount (removePlayer players socketId))
         = getPlayerCount players).
Proof.
  unfold getPlayerCount, getPlayer.
  set (P := λ entry : string * Player.t, Player.isConnected entry.2 = true).
  split.
  - intros Hnone newId suffixSource now username.
    unfold createPlayer. cbn [fst].
    rewrite map_filter_insert_True by done.
    apply map_size_insert_None, map_lookup_filter_None. by left.
  - intros player Hp Hconn.
    assert (Hin : filter P players !! socketId = Some player)
      by (by apply map_lookup_filter_Some).
    split; [|split].
    + intros newId suffixSource now username.
      unfold createPlayer. cbn [fst].
      rewrite map_filter_insert_True by done.
      by apply map_size_insert_Some.
    + unfold disconnectPlayer, getPlayer. rewrite Hp.
      rewrite map_filter_insert_False by (unfold P; simpl; congruence).
      rewrite map_filter_delete. symmetry. by eapply size_lookup_Some.
    + unfold removePlayer, getPlayer. rewrite Hp.
      rewrite map_filter_delete. symmetry. by eapply size_lookup_Some.
Qed.
End PlayersMore.

(** ** Room store *)

Section JsMapMore.
Context {V : Type}.
Implicit Types m : JsMap.t V.

Lemma JsMap_get_set_eq k v m : JsMap.get k (JsMap.set k v m) = Some v.
Proof.
  induction m as [|[k' v'] m IH]; simpl.
  - by rewrite decide_True.
  - case_decide as Hk; simpl; [by rewrite decide_True|].
    by rewrite decide_False.
Qed.

Lemma JsMap_get_set_ne k k' v m :
  k' ≠ k → JsMap.get k' (JsMap.set k v m) = JsMap.get k' m.
Proof.
  intros Hne. induction m as [|[k2 v2] m IH]; simpl.
  - by rewrite decide_False by congruence.
  - case_decide as Hk; simpl.
    + subst. by rewrite !decide_False by congruence.
    + case_decide; [done|apply IH].
Qed.

Lemma JsMap_keys_set k v m :
  JsMap.keys (JsMap.set k v m)
  = if decide (k ∈ JsMap.keys m) then JsMap.keys m else JsMap.keys m ++ [k].
Proof.
  unfold JsMap.keys. induction m as [|[k' v'] m IH].
  - cbn [JsMap.set fmap list_fmap fst].
    destruct (decide (k ∈ [])) as [Hin|]; [by apply elem_of_nil in Hin|done].
  - cbn [JsMap.set]. rewrite fmap_cons. cbn [fst].
    destruct (decide (k' = k)) as [->|Hk].
    + rewrite fmap_cons. cbn [fst].
      destruct (decide (k ∈ k :: m.*1)) as [|Hnotin]; [done|].
      destruct Hnotin. left.
    + rewrite fmap_cons, IH. cbn [fst].
      destruct (decide (k ∈ m.*1)) as [Hin|Hnotin];
        destruct (decide (k ∈ k' :: m.*1)) as [Hin'|Hnotin']; try done.
      * destruct Hnotin'. by right.
      * apply elem_of_cons in Hin' as [?|?]; [by destruct Hk|done].
Qed.

Lemma JsMap_elem_of_set k v m e : e ∈ JsMap.set k v m → e = (k, v) ∨ e ∈ m.
Proof.
  induction m as [|[k' v'] m IH]; simpl.
  - intros ?%list_elem_of_singleton. by left.
  - case_decide as Hk; rewrite !elem_of_cons.
    + intros [?|?]; auto.
    + intros [?|[?|?]%IH]; auto.
Qed.

Lemma JsMap_size_set_le k v m :
  JsMap.size (JsMap.set k v m) ≤ S (JsMap.size m).
Proof.
  unfold JsMap.size. induction m as [|[k' v'] m IH]; simpl; [done|].
  case_decide; simpl; lia.
Qed.

Lemma JsMap_size_delete_le k m : JsMap.size (JsMap.delete k m) ≤ JsMap.size m.
Proof.
  unfold JsMap.size. induction m as [|[k' v'] m IH]; simpl; [done|].
  case_decide; simpl; lia.
Qed.

Lemma JsMap_keys_elem_of_delete k k' m :
  k' ∈ JsMap.keys (JsMap.delete k m) → k' ∈ JsMap.keys m.
Proof.
  unfold JsMap.keys.
  intros ([k2 v] & -> & Hin)%list_elem_of_fmap.
  apply JsMap_elem_of_delete in Hin.
  apply list_elem_of_fmap. by exists (k2, v).
Qed.
End JsMapMore.

Section RoomsMore.
Import RoomManager.

(** [addPlayerToRoom] changes the store only when it succeeds.  It succeeds
    exactly on a stored room that has not started and has fewer than 20
    members; the player is then looked up under its connection id, the other
    members are as before, and a member who joins again keeps its place in
    the insertion order while a new one comes last. *)
Theorem addPlayerToRoom_outcome (rooms : Rooms) (roomId : string)
    (player : Player.t) :
  (∀ message,
     snd (addPlayerToRoom rooms roomId player) = Failure message →
     fst (addPlayerToRoom rooms roomId player) = rooms)
  ∧ (∀ room',
       snd (addPlayerToRoom rooms roomId player) = Success room' →
       ∃ room,
         rooms !! roomId = Some room
         ∧ Room.gameStarted room = false
         ∧ JsMap.size (Room.players room) < CONFIG.MAX_PLAYERS_PER_ROOM
         ∧ fst (addPlayerToRoom rooms roomId player)
           = <[roomId := room']> rooms
         ∧ JsMap.get (Player.socketId player) (Room.players room')
           = Some player
         ∧ (∀ k, k ≠ Player.socketId player →
              JsMap.get k (Room.players room')
              = JsMap.get k (Room.players room))
         ∧ JsMap.keys (Room.players room')
           = (if decide (Player.socketId player
                           ∈ JsMap.keys (Room.players room))
              then JsMap.keys (Room.players room)
              else JsMap.keys (Room.players room)
                     ++ [Player.socketId player])
         ∧ Room.hostSocketId room' = Room.hostSocketId room
         ∧ Room.teams room' = Room.teams room
         ∧ Room.gameStarted room' = false)
  ∧ (∀ room,
       rooms !! roomId = Some room →
       Room.gameStarted room = false →
       JsMap.size (Room.players room) < CONFIG.MAX_PLAYERS_PER_ROOM →
       ∃ room', snd (addPlayerToRoom rooms roomId player) = Success room').
Proof.
  unfold addPlayerToRoom, getRoom.
  destruct (rooms !! roomId) as [room|] eqn:Hroom.
  2:{ split; [done|]. split; [done|]. by intros ? [=]. }
  destruct (Room.gameStarted room) eqn:Hs.
  { split; [done|]. split; [done|]. intros ? [= <-] ?. congruence. }
  case_decide as Hfull.
  { split; [done|]. split; [done|]. intros ? [= <-] _ ?. lia. }
  split; [done|]. split.
  - intros room' [= <-]. exists room. cbn [fst Room.players Room.with_players
      Room.hostSocketId Room.teams Room.gameStarted].
    split; [done|]. split; [done|]. split; [lia|]. split; [done|].
    split; [apply JsMap_get_set_eq|].
    split; [intros k Hk; by apply JsMap_get_set_ne|].
    split; [apply JsMap_keys_set|done].
  - intros ? [= <-] _ _. by eexists.
Qed.

Lemma wellFormed_set (roomId : string) (room : Room.t) (player : Player.t) :
  wellFormed roomId room →
  JsMap.size (Room.players room) < CONFIG.MAX_PLAYERS_PER_ROOM →
  wellFormed roomId
    (Room.with_players
       (JsMap.set (Player.socketId player) player (Room.players room)) room).
Proof.
  intros (Hid & Hwf & Hkeyed & Hsize) Hroom. split; [done|].
  split; [by apply JsMap_wf_set|]. split.
  - intros k p [[= -> ->]|Hin]%JsMap_elem_of_set; [done|by apply Hkeyed].
  - simpl. pose proof (JsMap_size_set_le (Player.socketId player) player
                         (Room.players room)). lia.
Qed.

Lemma wellFormed_delete (roomId socketId : string) (room : Room.t) :
  wellFormed roomId room →
  wellFormed roomId
    (Room.with_players (JsMap.delete socketId (Room.players room)) room).
Proof.
  intros (Hid & Hwf & Hkeyed & Hsize). split; [done|].
  split; [by apply JsMap_wf_delete|]. split.
  - intros k p Hin%JsMap_elem_of_delete. by apply Hkeyed.
  - simpl. pose proof (JsMap_size_delete_le socketId (Room.players room)).
    lia.
Qed.

Lemma allWellFormed_insert (rooms : Rooms) (roomId : string) (room : Room.t) :
  allWellFormed rooms → wellFormed roomId room →
  allWellFormed (<[roomId := room]> rooms).
Proof.
  intros Hall Hroom k r. rewrite lookup_insert.
  case_decide; [by intros [= <-]; subst|apply Hall].
Qed.

Lemma allWellFormed_delete (rooms : Rooms) (roomId : string) :
  allWellFormed rooms → allWellFormed (delete roomId rooms).
Proof.
  intros Hall k r. rewrite lookup_delete. case_decide; [done|apply Hall].
Qed.

Lemma removePlayerFromRoom_wellFormed (rooms : Rooms)
    (roomId socketId : string) :
  allWellFormed rooms →
  allWellFormed (fst (removePlayerFromRoom rooms roomId socketId)).
Proof.
  intros Hall. unfold removePlayerFromRoom, getRoom.
  destruct (rooms !! roomId) as [room|] eqn:Hroom; [|done].
  pose proof (wellFormed_delete roomId socketId room (Hall _ _ Hroom))
    as Hwf.
  cbn [Room.players Room.with_teams Room.with_players Room.hostSocketId].
  case_bool_decide as Hsize.
  { cbn [fst]. unfold deleteRoom. rewrite delete_insert_eq.
    by apply allWellFormed_delete. }
  destruct (bool_decide (Room.hostSocketId room = socketId) && _).
  - destruct (JsMap.values _ !! 0); cbn [fst];
      by apply allWellFormed_insert.
  - cbn [fst]. by apply allWellFormed_insert.
Qed.

Lemma step_wellFormed (rooms rooms' : Rooms) :
  step rooms rooms' → allWellFormed rooms → allWellFormed rooms'.
Proof.
  destruct 1 as [codes now rooms host room rooms' rest Hcreate
                |rooms roomId player|rooms roomId socketId|rooms roomId
                |rooms roomId]; intros Hall.
  - apply createRoom_Created_inv in Hcreate
      as (_ & _ & _ & _ & Hroom & ->).
    apply allWellFormed_insert; [done|]. rewrite Hroom.
    split; [done|]. split; [apply NoDup_nil_2|]. split.
    + intros k p Hin. by apply elem_of_nil in Hin.
    + simpl. unfold CONFIG.MAX_PLAYERS_PER_ROOM. lia.
  - unfold addPlayerToRoom, getRoom.
    destruct (rooms !! roomId) as [room|] eqn:Hroom; [|done].
    destruct (Room.gameStarted room); [done|].
    case_decide as Hfull; [done|]. cbn [fst].
    apply allWellFormed_insert; [done|].
    apply wellFormed_set; [by apply Hall|lia].
  - by apply removePlayerFromRoom_wellFormed.
  - by apply allWellFormed_delete.
  - unfold startGame, getRoom.
    destruct (rooms !! roomId) as [room|] eqn:Hroom; [|done].
    destruct (Room.gameStarted room); [done|].
    case_decide; [done|]. cbn [fst].
    apply allWellFormed_insert; [done|]. exact (Hall _ _ Hroom).
Qed.

Lemma rtc_step_wellFormed (rooms rooms' : Rooms) :
  rtc step rooms rooms' → allWellFormed rooms → allWellFormed rooms'.
Proof.
  induction 1 as [|r1 r2 r3 Hstep _ IH]; [done|].
  intros Hall. apply IH. by eapply step_wellFormed.
Qed.

(** No sequence of store operations overfills a room or mixes up its keys:
    in every store reached from the empty one, each room is stored under its
    own code, has at most 20 members, and holds each member once, under the
    member's own connection id. *)
Theorem reachable_rooms_wellFormed (rooms : Rooms) :
  rtc step ∅ rooms →
  ∀ roomId room,
    rooms !! roomId = Some room →
    Room.id room = roomId
    ∧ NoDup (JsMap.keys (Room.players room))
    ∧ (∀ k p, (k, p) ∈ Room.players room → Player.socketId p = k)
    ∧ JsMap.size (Room.players room) ≤ 20.
Proof.
  intros Hreach roomId room Hroom.
  apply (rtc_step_wellFormed ∅ rooms Hreach); [|done].
  intros k r. by rewrite lookup_empty.
Qed.

Lemma reachable_rooms_wellFormed_witness :
  ∃ rooms,
    rtc step ∅ rooms
    ∧ ∀ roomId room,
        rooms !! roomId = Some room →
        Room.id room = roomId
        ∧ NoDup (JsMap.keys (Room.players room))
        ∧ (∀ k p, (k, p) ∈ Room.players room → Player.socketId p = k)
        ∧ JsMap.size (Room.players room) ≤ 20.
Proof.
  set (room := Room.mk "ABC123" "s1" JsMap.empty [] 0 false false 0).
  assert (Hreach : rtc step ∅ (<["ABC123" := room]> ∅)).
  { apply rtc_once. eapply (step_createRoom ["ABC123"] 0 ∅ "s1").
    apply createRoom_fresh, lookup_empty. }
  exists (<["ABC123" := room]> ∅). split; [exact Hreach|].
  exact (reachable_rooms_wellFormed _ Hreach).
Defined.

Lemma request_rtc_step (rooms rooms' : Rooms) :
  request rooms rooms' → rtc step rooms rooms'.
Proof.
  destruct 1 as [codes now rooms player rooms' Hreq| | | |].
  - unfold createRoomRequest in Hreq.
    destruct (createRoom _ _ _ _) as [room rooms1 rest|] eqn:Hcreate; [|done].
    injection Hreq as <-.
    eapply rtc_l; [by eapply step_createRoom|].
    apply rtc_once, step_addPlayerToRoom.
  - apply rtc_once, step_addPlayerToRoom.
  - apply rtc_once, step_removePlayerFromRoom.
  - apply rtc_once, step_deleteRoom.
  - apply rtc_once, step_startGame.
Qed.

Lemma allHostsMembers_insert (rooms : Rooms) (roomId : string)
    (room : Room.t) :
  allHostsMembers rooms →
  Room.hostSocketId room ∈ JsMap.keys (Room.players room) →
  allHostsMembers (<[roomId := room]> rooms).
Proof.
  intros Hall Hroom k r. rewrite lookup_insert.
  case_decide; [by intros [= <-]|apply Hall].
Qed.

Lemma request_hosts (rooms rooms' : Rooms) :
  request rooms rooms' →
  allWellFormed rooms → allHostsMembers rooms → allHostsMembers rooms'.
Proof.
  destruct 1 as [codes now rooms player rooms' Hreq
                |rooms roomId player|rooms roomId socketId|rooms roomId
                |rooms roomId]; intros Hwf Hall.
  - unfold createRoomRequest in Hreq.
    destruct (createRoom _ _ _ _) as [room rooms1 rest|] eqn:Hcreate; [|done].
    injection Hreq as <-.
    apply createRoom_Created_inv in Hcreate
      as (_ & _ & _ & _ & Hroom & ->).
    unfold addPlayerToRoom, getRoom. rewrite lookup_insert_eq.
    rewrite Hroom. cbn [Room.gameStarted Room.players Room.id].
    rewrite decide_False by (unfold CONFIG.MAX_PLAYERS_PER_ROOM; simpl; lia).
    cbn [fst]. rewrite insert_insert_eq.
    apply allHostsMembers_insert; [done|]. simpl. left.
  - unfold addPlayerToRoom, getRoom.
    destruct (rooms !! roomId) as [room|] eqn:Hroom; [|done].
    destruct (Room.gameStarted room); [done|].
    case_decide as Hfull; [done|]. cbn [fst].
    apply allHostsMembers_insert; [done|].
    cbn [Room.players Room.with_players Room.hostSocketId].
    rewrite JsMap_keys_set. pose proof (Hall _ _ Hroom) as Hhost.
    case_decide; [done|]. apply elem_of_app. by left.
  - unfold removePlayerFromRoom, getRoom.
    destruct (rooms !! roomId) as [room|] eqn:Hroom; [|done].
    destruct (Hwf _ _ Hroom) as (_ & Hnd & Hkeyed & _).
    pose proof (Hall _ _ Hroom) as Hhost.
    pose proof (JsMap_keys_delete socketId _ Hnd) as Hkeys.
    cbn [Room.players Room.with_teams Room.with_players Room.hostSocketId].
    case_bool_decide as Hsize.
    { cbn [fst]. unfold deleteRoom. rewrite delete_insert_eq.
      intros k r. rewrite lookup_delete. case_decide; [done|apply Hall]. }
    case_bool_decide as Hh; cbn [andb].
    + destruct (JsMap.delete socketId (Room.players room))
        as [|[k newHost] rest] eqn:Hdel; [done|].
      rewrite bool_decide_eq_true_2 by (simpl; lia).
      cbn [JsMap.values fmap list_fmap snd lookup list_lookup fst].
      apply allHostsMembers_insert; [done|].
      cbn [Room.players Room.with_hostSocketId Room.with_teams
           Room.with_players Room.hostSocketId].
      rewrite (Hkeyed k newHost).
      * simpl. left.
      * apply (JsMap_elem_of_delete socketId). rewrite Hdel. left.
    + cbn [fst]. apply allHostsMembers_insert; [done|].
      cbn [Room.players Room.with_teams Room.with_players Room.hostSocketId].
      rewrite Hkeys. by apply list_elem_of_filter.
  - intros k r. unfold deleteRoom. rewrite lookup_delete.
    case_decide; [done|apply Hall].
  - unfold startGame, getRoom.
    destruct (rooms !! roomId) as [room|] eqn:Hroom; [|done].
    destruct (Room.gameStarted room); [done|].
    case_decide; [done|]. cbn [fst].
    apply allHostsMembers_insert; [done|]. exact (Hall _ _ Hroom).
Qed.

(** Between requests every room has a host who is in it: in every store
    reached from the empty one by create-room requests, [addPlayerToRoom],
    [removePlayerFromRoom], [deleteRoom] and [startGame], the host
    connection id of a stored room is the key of one of its members. *)
Theorem host_is_always_a_member (rooms : Rooms) :
  rtc request ∅ rooms →
  ∀ roomId room,
    rooms !! roomId = Some room →
    Room.hostSocketId room ∈ JsMap.keys (Room.players room)
    ∧ is_Some (JsMap.get (Room.hostSocketId room) (Room.players room)).
Proof.
  intros Hreach.
  assert (Hgen : ∀ r1 r2, rtc request r1 r2 →
            allWellFormed r1 ∧ allHostsMembers r1 →
            allWellFormed r2 ∧ allHostsMembers r2).
  { induction 1 as [|r1 r2 r3 Hstep _ IH]; [done|].
    intros [Hwf Hhosts]. apply IH. split.
    - eapply rtc_step_wellFormed; [by apply request_rtc_step|done].
    - by eapply request_hosts. }
  destruct (Hgen ∅ rooms Hreach) as [_ Hhosts].
  { split; intros k r; by rewrite lookup_empty. }
  intros roomId room Hroom. split; [by eapply Hhosts|].
  apply JsMap_get_is_Some. by eapply Hhosts.
Qed.

Lemma host_is_always_a_member_witness :
  ∃ rooms,
    rtc request ∅ rooms
    ∧ is_Some (rooms !! "ABC123")
    ∧ ∀ roomId room,
        rooms !! roomId = Some room →
        Room.hostSocketId room ∈ JsMap.keys (Room.players room)
        ∧ is_Some (JsMap.get (Room.hostSocketId room) (Room.players room)).
Proof.
  destruct (createRoomRequest ["ABC123"] 0 ∅ (Sample.player "s1" None))
    as [rooms|] eqn:Hreq; [|by vm_compute in Hreq].
  assert (Hreach : rtc request ∅ rooms).
  { apply rtc_once. by eapply request_createRoom. }
  exists rooms. split; [exact Hreach|]. split.
  - vm_compute in Hreq. injection Hreq as <-. by eexists.
  - exact (host_is_always_a_member _ Hreach).
Defined.

(** [startGame] needs two members: in a stored room that has not started it
    fails with the player minimum below two members and leaves the store
    alone; otherwise it succeeds, changes only the started flag, and closes
    the room: afterwards nobody can join and a second start is refused. *)
Theorem startGame_closes_the_room (rooms : Rooms) (roomId : string)
    (room : Room.t) :
  rooms !! roomId = Some room →
  Room.gameStarted room = false →
  (JsMap.size (Room.players room) < 2 →
   startGame rooms roomId = (rooms, Failure "Need at least 2 players"))
  ∧ (2 ≤ JsMap.size (Room.players room) →
     let room' := Room.with_gameStarted true room in
     let rooms' := <[roomId := room']> rooms in
     startGame rooms roomId = (rooms', Success room')
     ∧ (∀ player,
          addPlayerToRoom rooms' roomId player
          = (rooms', Failure "Game already started"))
     ∧ startGame rooms' roomId = (rooms', Failure "Game already started")).
Proof.
  intros Hroom Hs. unfold startGame, addPlayerToRoom, getRoom.
  rewrite Hroom, Hs. unfold CONFIG.MIN_PLAYERS_TO_START. split.
  - intros Hfew. rewrite decide_True by done. by vm_compute.
  - intros Hmany. rewrite decide_False by lia.
    rewrite lookup_insert_eq. done.
Qed.

Lemma startGame_closes_the_room_witness :
  Sample.roomsOne !! "AAAAAA"
  = Some (Room.mk "AAAAAA" "s1" (Sample.members ["s1"]) [] 0 false false 0)
  ∧ startGame Sample.roomsOne "AAAAAA"
    = (Sample.roomsOne, Failure "Need at least 2 players").
Proof.
  split; [reflexivity|].
  apply (startGame_closes_the_room Sample.roomsOne "AAAAAA"
           (Room.mk "AAAAAA" "s1" (Sample.members ["s1"]) [] 0 false false 0));
    [reflexivity|reflexivity|simpl; lia].
Defined.

(** A started room is closed for good: whatever single store operation
    runs, a started room that is still stored afterwards is still started,
    and it has gained no member. *)
Theorem started_room_stays_started (rooms rooms' : Rooms) (roomId : string)
    (room room' : Room.t) :
  step rooms rooms' →
  rooms !! roomId = Some room →
  Room.gameStarted room = true →
  rooms' !! roomId = Some room' →
  Room.gameStarted room' = true
  ∧ ∀ k, k ∈ JsMap.keys (Room.players room') →
         k ∈ JsMap.keys (Room.players room).
Proof.
  intros Hstep Hroom Hs.
  destruct Hstep as [codes now rooms host room0 rooms' rest Hcreate
                    |rooms roomId0 player|rooms roomId0 socketId
                    |rooms roomId0|rooms roomId0].
  - apply createRoom_Created_inv in Hcreate
      as (_ & _ & _ & Hfresh & _ & ->).
    rewrite lookup_insert_ne by congruence.
    rewrite Hroom. by intros [= <-].
  - unfold addPlayerToRoom, getRoom.
    destruct (decide (roomId0 = roomId)) as [->|Hne].
    + rewrite Hroom, Hs. cbn [fst]. rewrite Hroom. by intros [= <-].
    + destruct (rooms !! roomId0) as [r0|];
        [|cbn [fst]; rewrite Hroom; by intros [= <-]].
      destruct (Room.gameStarted r0);
        [cbn [fst]; rewrite Hroom; by intros [= <-]|].
      case_decide; cbn [fst];
        rewrite ?lookup_insert_ne by done; rewrite Hroom; by intros [= <-].
  - unfold removePlayerFromRoom, getRoom.
    destruct (decide (roomId0 = roomId)) as [->|Hne].
    + rewrite Hroom.
      cbn [Room.players Room.with_teams Room.with_players Room.hostSocketId].
      case_bool_decide as Hsize.
      { cbn [fst]. unfold deleteRoom. by rewrite lookup_delete_eq. }
      destruct (bool_decide (Room.hostSocketId room = socketId) && _).
      * destruct (JsMap.values _ !! 0); cbn [fst];
          rewrite lookup_insert_eq; intros [= <-]; (split; [done|]);
          intros k; apply JsMap_keys_elem_of_delete.
      * cbn [fst]. rewrite lookup_insert_eq. intros [= <-].
        split; [done|]. intros k. apply JsMap_keys_elem_of_delete.
    + destruct (rooms !! roomId0) as [r0|];
        [|cbn [fst]; rewrite Hroom; by intros [= <-]].
      cbn [Room.players Room.with_teams Room.with_players Room.hostSocketId].
      case_bool_decide as Hsize.
      { cbn [fst]. unfold deleteRoom.
        rewrite lookup_delete_ne, lookup_insert_ne by done.
        rewrite Hroom. by intros [= <-]. }
      destruct (bool_decide (Room.hostSocketId r0 = socketId) && _).
      * destruct (JsMap.values _ !! 0); cbn [fst];
          rewrite lookup_insert_ne by done; rewrite Hroom; by intros [= <-].
      * cbn [fst]. rewrite lookup_insert_ne by done.
        rewrite Hroom. by intros [= <-].
  - unfold deleteRoom. rewrite lookup_delete.
    case_decide; [done|]. rewrite Hroom. by intros [= <-].
  - unfold startGame, getRoom.
    destruct (decide (roomId0 = roomId)) as [->|Hne].
    + rewrite Hroom, Hs. cbn [fst]. rewrite Hroom. by intros [= <-].
    + destruct (rooms !! roomId0) as [r0|];
        [|cbn [fst]; rewrite Hroom; by intros [= <-]].
      destruct (Room.gameStarted r0);
        [cbn [fst]; rewrite Hroom; by intros [= <-]|].
      case_decide; cbn [fst];
        rewrite ?lookup_insert_ne by done; rewrite Hroom; by intros [= <-].
Qed.

Lemma started_room_stays_started_witness :
  step Sample.roomsThree
    (fst (removePlayerFromRoom Sample.roomsThree "ABC123" "s2"))
  ∧ ∃ room',
      fst (removePlayerFromRoom Sample.roomsThree "ABC123" "s2") !! "ABC123"
      = Some room'
      ∧ Room.gameStarted room' = true
      ∧ ∀ k, k ∈ JsMap.keys (Room.players room') →
             k ∈ JsMap.keys (Room.players Sample.roomTwoTeams).
Proof.
  split; [apply step_removePlayerFromRoom|].
  eexists. split; [by vm_compute|].
  eapply (started_room_stays_started Sample.roomsThree _ "ABC123"
            Sample.roomTwoTeams).
  - apply (step_removePlayerFromRoom _ "ABC123" "s2").
  - reflexivity.
  - reflexivity.
  - by vm_compute.
Defined.

(** Leaving a room that keeps other members touches nothing but the
    membership: the call keeps the room in the store and returns it without
    the leaving connection id among the members or in any team, with the
    turn counter, the lock, the started flag and the other rooms as they
    were, and with the same host unless the host is the one who left.  A
    team lists a connection id at most once. *)
Theorem removePlayerFromRoom_frame (rooms : Rooms) (roomId socketId : string)
    (room : Room.t) (other : string) :
  rooms !! roomId = Some room →
  JsMap.wf (Room.players room) →
  Forall (λ team, NoDup (Team.players team)) (Room.teams room) →
  other ∈ JsMap.keys (Room.players room) →
  other ≠ socketId →
  ∃ room',
    removePlayerFromRoom rooms roomId socketId
    = (<[roomId := room']> rooms,
       Normal (mkRemoveResult true false (Some room')))
    ∧ JsMap.keys (Room.players room')
      = filter (λ k, k ≠ socketId) (JsMap.keys (Room.players room))
    ∧ JsMap.get socketId (Room.players room') = None
    ∧ Room.teams room' = TeamManager.removeMember socketId <$> Room.teams room
    ∧ (∀ team, team ∈ Room.teams room' → socketId ∉ Team.players team)
    ∧ Room.currentTurn room' = Room.currentTurn room
    ∧ Room.turnLocked room' = Room.turnLocked room
    ∧ Room.gameStarted room' = Room.gameStarted room
    ∧ Room.id room' = Room.id room
    ∧ (Room.hostSocketId room ≠ socketId →
       Room.hostSocketId room' = Room.hostSocketId room).
Proof.
  intros Hroom Hwf Hteams Hother Hne.
  pose proof (JsMap_keys_delete socketId _ Hwf) as Hkeys.
  assert (Hin : other ∈ JsMap.keys (JsMap.delete socketId (Room.players room))).
  { rewrite Hkeys. by apply list_elem_of_filter. }
  assert (Hgone : JsMap.get socketId
                    (JsMap.delete socketId (Room.players room)) = None).
  { apply JsMap_get_None. rewrite Hkeys.
    intros [? _]%list_elem_of_filter. done. }
  assert (Hout : ∀ team,
            team ∈ TeamManager.removeMember socketId <$> Room.teams room →
            socketId ∉ Team.players team).
  { intros team (team0 & -> & Hin0)%list_elem_of_fmap.
    apply removeMember_not_elem_of. by eapply Forall_forall in Hteams. }
  unfold removePlayerFromRoom, getRoom. rewrite Hroom.
  cbn [Room.players Room.with_teams Room.with_players Room.hostSocketId].
  destruct (JsMap.delete socketId (Room.players room))
    as [|[k newHost] rest] eqn:Hdel.
  { by apply elem_of_nil in Hin. }
  rewrite bool_decide_eq_false_2 by done.
  case_bool_decide as Hhost; cbn [andb].
  - rewrite bool_decide_eq_true_2 by (simpl; lia).
    cbn [JsMap.values fmap list_fmap snd lookup list_lookup].
    eexists. split; [reflexivity|].
    cbn [Room.players Room.with_hostSocketId Room.with_teams
         Room.with_players Room.hostSocketId Room.teams Room.currentTurn
         Room.turnLocked Room.gameStarted Room.id].
    repeat split; try done.
  - eexists. split; [reflexivity|].
    cbn [Room.players Room.with_hostSocketId Room.with_teams
         Room.with_players Room.hostSocketId Room.teams Room.currentTurn
         Room.turnLocked Room.gameStarted Room.id].
    repeat split; try done.
Qed.

Lemma removePlayerFromRoom_frame_witness :
  ∃ room',
    removePlayerFromRoom Sample.roomsThree "ABC123" "s2"
    = (<["ABC123" := room']> Sample.roomsThree,
       Normal (mkRemoveResult true false (Some room')))
    ∧ JsMap.keys (Room.players room')
      = filter (λ k, k ≠ "s2")
          (JsMap.keys (Room.players Sample.roomTwoTeams))
    ∧ JsMap.get "s2" (Room.players room') = None
    ∧ Room.teams room'
      = TeamManager.removeMember "s2" <$> Room.teams Sample.roomTwoTeams
    ∧ (∀ team, team ∈ Room.teams room' → "s2" ∉ Team.players team)
    ∧ Room.currentTurn room' = Room.currentTurn Sample.roomTwoTeams
    ∧ Room.turnLocked room' = Room.turnLocked Sample.roomTwoTeams
    ∧ Room.gameStarted room' = Room.gameStarted Sample.roomTwoTeams
    ∧ Room.id room' = Room.id Sample.roomTwoTeams
    ∧ (Room.hostSocketId Sample.roomTwoTeams ≠ "s2" →
       Room.hostSocketId room' = Room.hostSocketId Sample.roomTwoTeams).
Proof.
  apply (removePlayerFromRoom_frame Sample.roomsThree "ABC123" "s2"
           Sample.roomTwoTeams "s1").
  - reflexivity.
  - apply (bool_decide_unpack _). by vm_compute.
  - repeat constructor; apply (bool_decide_unpack _); by vm_compute.
  - simpl. left.
  - discriminate.
Defined.

(** Creating a room and leaving it at once gives the store back: the room
    created for a player counts as one more room and exists once the player
    has joined it, and when that player leaves, the call reports the
    deletion, the code no longer exists and the store is the one before the
    creation. *)
Theorem create_then_leave_restores (codes : list string) (now : nat)
    (rooms rooms0 : Rooms) (player : Player.t) (room : Room.t)
    (rest : list string) :
  createRoom codes now rooms (Player.socketId player)
  = Created room rooms0 rest →
  let rooms1 := fst (addPlayerToRoom rooms0 (Room.id room) player) in
  let left :=
    removePlayerFromRoom rooms1 (Room.id room) (Player.socketId player) in
  getRoomCount rooms0 = S (getRoomCount rooms)
  ∧ roomExists rooms1 (Room.id room) = true
  ∧ fst left = rooms
  ∧ roomExists (fst left) (Room.id room) = false
  ∧ ∃ room', snd left = Normal (mkRemoveResult true true (Some room')).
Proof.
  intros (_ & _ & _ & Hfresh & Hroom & ->)%createRoom_Created_inv.
  set (roomId := Room.id room) in *.
  unfold getRoomCount. split; [by apply map_size_insert_None|].
  unfold addPlayerToRoom, getRoom. rewrite lookup_insert_eq.
  rewrite Hroom. cbn [Room.gameStarted Room.players].
  rewrite decide_False by (unfold CONFIG.MAX_PLAYERS_PER_ROOM; simpl; lia).
  cbn [fst]. rewrite insert_insert_eq. split.
  { unfold roomExists. rewrite lookup_insert_eq.
    apply bool_decide_eq_true_2. by eexists. }
  unfold removePlayerFromRoom, getRoom. rewrite lookup_insert_eq.
  cbn [Room.players Room.with_teams Room.with_players Room.hostSocketId
       JsMap.set JsMap.empty JsMap.delete].
  rewrite decide_True by done.
  rewrite bool_decide_eq_true_2 by done. cbn [fst snd].
  unfold deleteRoom. rewrite !delete_insert_eq.
  rewrite delete_id by done. split; [done|]. split; [|by eexists].
  unfold roomExists. apply bool_decide_eq_false_2.
  rewrite Hfresh. by intros [? ?].
Qed.

Lemma create_then_leave_restores_witness :
  ∃ room rooms0,
    createRoom ["AAAAAA"; "ABC123"] 5 Sample.roomsOne "s2"
    = Created room rooms0 []
    ∧ fst (removePlayerFromRoom
             (fst (addPlayerToRoom rooms0 (Room.id room)
                     (Sample.player "s2" None)))
             (Room.id room) "s2")
      = Sample.roomsOne.
Proof.
  set (room := Room.mk "ABC123" "s2" JsMap.empty [] 0 false false 5).
  assert (Hcreate : createRoom ["AAAAAA"; "ABC123"] 5 Sample.roomsOne "s2"
                    = Created room (<["ABC123" := room]> Sample.roomsOne) []).
  { rewrite (createRoom_skips_taken ["AAAAAA"] ["ABC123"]).
    - by apply createRoom_fresh.
    - repeat constructor. by eexists. }
  exists room, (<["ABC123" := room]> Sample.roomsOne). split; [done|].
  apply (create_then_leave_restores ["AAAAAA"; "ABC123"] 5 Sample.roomsOne
           _ (Sample.player "s2" None) room [] Hcreate).
Defined.
End RoomsMore.

(** ** Team assigner *)

Section TeamsMore.
Import TeamManager.

Lemma createTeams_lookup (n i : nat) :
  i < n →
  createTeams n !! i
  = Some (Team.mk i (default ("Team " +:+ pretty (i + 1)) (teamNames !! i))
            [] 0).
Proof.
  intros Hi. unfold createTeams.
  by rewrite list_lookup_fmap, lookup_seq_lt.
Qed.

(** [createTeams(n)] returns exactly [n] teams with the ids [0 .. n-1] in
    order, without members and with score 0; the first six carry the fixed
    labels and the later ones are named "Team k" with [k] counted from 1;
    [getTeamById] finds the team with id [i] at position [i], and nothing
    for an id from [n] on. *)
Theorem createTeams_contiguous (n : nat) :
  length (createTeams n) = n
  ∧ Team.id <$> createTeams n = seq 0 n
  ∧ (∀ team, team ∈ createTeams n →
       Team.players team = [] ∧ Team.score team = 0)
  ∧ (∀ i team, createTeams n !! i = Some team →
       (i < 6 → teamNames !! i = Some (Team.name team))
       ∧ (6 ≤ i → Team.name team = "Team " +:+ pretty (i + 1)))
  ∧ (∀ i, i < n →
       getTeamById (createTeams n) i = createTeams n !! i
       ∧ Team.id <$> getTeamById (createTeams n) i = Some i)
  ∧ (∀ i, n ≤ i → getTeamById (createTeams n) i = None).
Proof.
  assert (Hlen : length (createTeams n) = n).
  { unfold createTeams. by rewrite length_fmap, length_seq. }
  assert (Hget : ∀ i team, createTeams n !! i = Some team →
            i < n
            ∧ team = Team.mk i (default ("Team " +:+ pretty (i + 1))
                                  (teamNames !! i)) [] 0).
  { intros i team Hi. pose proof (lookup_lt_Some _ _ _ Hi) as Hlt.
    rewrite Hlen in Hlt. rewrite createTeams_lookup in Hi by done.
    by injection Hi as <-. }
  split; [done|]. split; [|split; [|split; [|split]]].
  - unfold createTeams. rewrite <- list_fmap_compose.
    rewrite <- (list_fmap_id (seq 0 n)) at 2. by apply list_fmap_ext.
  - intros team (i & Hi)%list_elem_of_lookup.
    by destruct (Hget i team Hi) as [_ ->].
  - intros i team Hi. destruct (Hget i team Hi) as [_ ->]. split.
    + intros H6. do 6 (destruct i as [|i]; [done|]). lia.
    + intros H6. do 6 (destruct i as [|i]; [lia|]). done.
  - intros i Hi. unfold getTeamById.
    assert (Hfind : list_find (λ team, Team.id team = i) (createTeams n)
                    = Some (i, Team.mk i
                                 (default ("Team " +:+ pretty (i + 1))
                                    (teamNames !! i)) [] 0)).
    { apply list_find_Some. split; [by apply createTeams_lookup|].
      split; [done|]. intros j team Hj Hlt.
      destruct (Hget j team Hj) as [_ ->]. simpl. lia. }
    rewrite Hfind. simpl. by rewrite createTeams_lookup.
  - intros i Hi. unfold getTeamById.
    destruct (list_find _ _) as [[j team]|] eqn:Hfind; [|done].
    apply list_find_Some in Hfind as (Hj & Hid & _).
    destruct (Hget j team Hj) as [Hlt ->]. simpl in Hid. lia.
Qed.

Lemma swap_same {A} (i : nat) (a : list A) : swap i i a = a.
Proof.
  unfold swap. destruct (a !! i) as [x|] eqn:Hi; [|done].
  rewrite list_insert_insert_eq. by apply list_insert_id.
Qed.

(** [shuffleArray] only reorders: its result is a permutation of the array,
    of the same length and with the same elements, without repetition when
    the array has none; an array of at most one element comes back as it is,
    and so does any array when every draw picks the index at hand. *)
Theorem shuffleArray_permutes {A} (rnd : nat → nat) (array : list A) :
  shuffleArray rnd array ≡ₚ array
  ∧ length (shuffleArray rnd array) = length array
  ∧ (∀ x, x ∈ shuffleArray rnd array ↔ x ∈ array)
  ∧ (NoDup array → NoDup (shuffleArray rnd array))
  ∧ (length array ≤ 1 → shuffleArray rnd array = array)
  ∧ ((∀ i, rnd i = i) → shuffleArray rnd array = array).
Proof.
  pose proof (shuffleFrom_Permutation rnd (length array - 1) array) as Hperm.
  fold (shuffleArray rnd array) in Hperm.
  split; [done|]. split; [by rewrite Hperm|].
  split; [intros x; by rewrite Hperm|].
  split; [intros Hnd; by rewrite Hperm|]. split.
  - intros Hshort. unfold shuffleArray.
    by replace (length array - 1) with 0 by lia.
  - intros Hid. unfold shuffleArray.
    generalize (length array - 1). intros n.
    induction n as [|n IH]; [done|]. cbn [shuffleFrom].
    rewrite Hid, (Nat.mod_small (S n) (S n + 1)) by lia.
    by rewrite swap_same.
Qed.

(** With an empty team list [assignPlayersToTeams] throws as soon as there
    is a player, and returns the empty list when there is none. *)
Lemma assignPlayersToTeams_no_teams (rnd : nat → nat)
    (playersMap : JsMap.t Player.t) (registry : Registry) :
  assignPlayersToTeams rnd playersMap [] registry
  = ([], registry,
     if decide (JsMap.size playersMap = 0) then Normal ()
     else Throw TypeError).
Proof.
  unfold assignPlayersToTeams.
  pose proof (shuffleFrom_Permutation rnd
                (length (JsMap.values playersMap) - 1)
                (JsMap.values playersMap)) as Hperm.
  fold (shuffleArray rnd (JsMap.values playersMap)) in Hperm.
  apply Permutation_length in Hperm.
  unfold JsMap.values in Hperm at 2. rewrite length_fmap in Hperm.
  unfold JsMap.size.
  destruct (shuffleArray rnd (JsMap.values playersMap)) as [|p rest];
    simpl in *.
  - by rewrite decide_True.
  - by rewrite decide_False by lia.
Qed.

Lemma elem_of_allMembers (teams : list Team.t) (i : nat) (team : Team.t)
    (s : string) :
  teams !! i = Some team → s ∈ Team.players team → s ∈ allMembers teams.
Proof.
  unfold allMembers. revert i.
  induction teams as [|h rest IH]; intros [|i] Hi Hs; simplify_eq/=.
  - apply elem_of_app. by left.
  - apply elem_of_app. right. by eapply IH.
Qed.

Lemma allMembers_NoDup_index (teams : list Team.t) (i j : nat)
    (t t' : Team.t) (s : string) :
  NoDup (allMembers teams) →
  teams !! i = Some t → teams !! j = Some t' →
  s ∈ Team.players t → s ∈ Team.players t' → i = j.
Proof.
  revert i j. induction teams as [|h rest IH]; intros i j Hnd Hi Hj Hs Hs';
    [done|].
  unfold allMembers in Hnd. rewrite fmap_cons in Hnd. simpl in Hnd.
  apply NoDup_app in Hnd as (_ & Hdisj & Hrest).
  destruct i as [|i], j as [|j]; simplify_eq/=; try done.
  - destruct (Hdisj s Hs). by eapply elem_of_allMembers.
  - destruct (Hdisj s Hs'). by eapply elem_of_allMembers.
  - f_equal. by eapply IH.
Qed.

Lemma with_players_same (team : Team.t) :
  Team.with_players (Team.players team) team = team.
Proof. by destruct team. Qed.

(** What a move of [balanceTeams] does to the members and to the records:
    the teams hold the same connection ids, and the registry still names for
    every member its team. *)
Lemma move_keeps_members (teams : list Team.t) (registry : Registry)
    (si li : nat) (st lt : Team.t) (remaining : list string) (p : string) :
  teams !! si = Some st →
  teams !! li = Some lt →
  si ≠ li →
  Team.players lt = remaining ++ [p] →
  NoDup (allMembers teams) →
  recorded teams registry →
  let teams' :=
    <[si := Team.with_players (Team.players st ++ [p]) st]>
      (<[li := Team.with_players remaining lt]> teams) in
  allMembers teams' ≡ₚ allMembers teams
  ∧ recorded teams'
      (PlayerManager.setPlayerTeam registry p (Some (Team.id st))).
Proof.
  intros Hsi Hli Hne Hpl Hnd Hrec teams'.
  set (lt' := Team.with_players remaining lt).
  set (st' := Team.with_players (Team.players st ++ [p]) st) in *.
  set (teams1 := <[li := lt']> teams) in *.
  assert (Hli1 : teams1 !! li = Some lt').
  { apply list_lookup_insert_eq. by eapply lookup_lt_Some. }
  assert (Hsi1 : teams1 !! si = Some st).
  { unfold teams1. by rewrite list_lookup_insert_ne. }
  assert (Hback : teams
                  = <[li := Team.with_players (Team.players lt' ++ [p]) lt']>
                      teams1).
  { unfold teams1. rewrite list_insert_insert_eq.
    symmetry. apply list_insert_id. rewrite Hli. f_equal.
    unfold lt'. simpl. rewrite <- Hpl. by destruct lt. }
  assert (Hperm : allMembers teams' ≡ₚ allMembers teams).
  { pose proof (allMembers_push teams1 li lt' p Hli1) as Hold.
    rewrite <- Hback in Hold. rewrite Hold.
    apply (allMembers_push teams1 si st p Hsi1). }
  split; [done|].
  assert (Hsi' : teams' !! si = Some st').
  { apply list_lookup_insert_eq. unfold teams1. rewrite length_insert.
    by eapply lookup_lt_Some. }
  intros t s pl (j & Hj)%list_elem_of_lookup Hs Hp.
  rewrite setPlayerTeam_lookup in Hp.
  assert (Hcases : (j = si ∧ t = st')
                   ∨ (j ≠ si ∧ j = li ∧ t = lt')
                   ∨ (j ≠ si ∧ j ≠ li ∧ teams !! j = Some t)).
  { unfold teams' in Hj.
    apply list_lookup_insert_Some in Hj as [(-> & <- & _)|(Hjs & Hj)];
      [by left|].
    unfold teams1 in Hj.
    apply list_lookup_insert_Some in Hj as [(-> & <- & _)|(Hjl & Hj)];
      [right; by left|].
    right. right. done. }
  case_decide as Hsp.
  - subst s. assert (Hjsi : j = si).
    { apply (allMembers_NoDup_index teams' j si t st' p); try done.
      - by rewrite Hperm.
      - unfold st'. simpl. apply elem_of_app. right. left. }
    destruct Hcases as [[_ ->]|[(? & _)|(? & _)]]; try done.
    destruct (PlayerManager.getPlayer registry p); simplify_eq/=. done.
  - destruct Hcases as [[_ ->]|[(_ & _ & ->)|(_ & _ & Hjt)]].
    + unfold st' in Hs. simpl in Hs.
      apply elem_of_app in Hs as [Hs|Hs%list_elem_of_singleton]; [|done].
      apply (Hrec st s pl); [by eapply list_elem_of_lookup_2|done|done].
    + unfold lt' in Hs. simpl in Hs.
      apply (Hrec lt s pl); [by eapply list_elem_of_lookup_2| |done].
      rewrite Hpl. apply elem_of_app. by left.
    + apply (Hrec t s pl); [by eapply list_elem_of_lookup_2|done|done].
Qed.

(** Balancing loses nobody: when [balanceTeams] returns for teams whose
    members are pairwise distinct, the teams it leaves hold the same
    connection ids in the same teams list (same ids, same number of teams),
    they are balanced in the sense of [getTeamStats], and a registry that
    named every member's team before does so afterwards; it knows the same
    connections. *)
Theorem balanceTeams_keeps_members (fuel : nat) :
  ∀ (teams teams' : list Team.t) (registry registry' : Registry),
    balanceTeams fuel teams registry = Some (teams', registry', Normal ()) →
    NoDup (allMembers teams) →
    recorded teams registry →
    allMembers teams' ≡ₚ allMembers teams
    ∧ recorded teams' registry'
    ∧ Team.id <$> teams' = Team.id <$> teams
    ∧ isBalanced (getTeamStats teams') = true
    ∧ totalTeams (getTeamStats teams') = length teams
    ∧ (∀ s, is_Some (PlayerManager.getPlayer registry' s)
            ↔ is_Some (PlayerManager.getPlayer registry s)).
Proof.
  induction fuel as [|fuel IH]; intros teams teams' registry registry' Hrun
    Hnd Hrec; [done|].
  cbn [balanceTeams] in Hrun.
  destruct (nextMove teams) as [| |teams1 p tid] eqn:Hnm; [done| |].
  - injection Hrun as <- <-. apply nextMove_Balanced in Hnm as [Hne Hbal].
    split; [done|]. split; [done|]. split; [done|]. split; [|done].
    unfold getTeamStats. cbn [isBalanced].
    destruct (teamSizes teams) as [|n sizes] eqn:Hsizes; [done|].
    apply bool_decide_eq_true_2. lia.
  - assert (Hne : teams ≠ []) by (by intros ->).
    destruct (nextMove_cases teams Hne)
      as (si & st & li & lt & Hsi & Hli & Hmin & Hmax
          & [[_ Hb]|(Hgap & remaining & p' & Hpl & Hm)]); [congruence|].
    rewrite Hm in Hnm. injection Hnm as <- <- <-.
    assert (Hsl : si ≠ li) by (intros ->; simplify_eq; lia).
    destruct (move_keeps_members teams registry si li st lt remaining p')
      as [Hperm Hrec1]; try done.
    destruct (move_properties teams si li st lt remaining p')
      as (_ & Hids & _); try done.
    destruct (IH _ _ _ _ Hrun) as (Hperm' & Hrec' & Hids' & Hbal & Htot & Hdom);
      [by rewrite Hperm|done|].
    split; [by rewrite Hperm'|]. split; [done|].
    split; [congruence|]. split; [done|]. split.
    + rewrite Htot. by rewrite !length_insert.
    + intros s. rewrite Hdom. apply setPlayerTeam_is_Some.
Qed.

Lemma balanceTeams_keeps_members_witness :
  ∃ teams' registry',
    balanceTeams 5 Sample.teamsUneven Sample.registryOne
    = Some (teams', registry', Normal ())
    ∧ allMembers teams' ≡ₚ allMembers Sample.teamsUneven
    ∧ isBalanced (getTeamStats teams') = true.
Proof.
  destruct (balanceTeams 5 Sample.teamsUneven Sample.registryOne)
    as [[[teams' registry'] [[]|e]]|] eqn:Hrun;
    [|by vm_compute in Hrun|by vm_compute in Hrun].
  exists teams', registry'. split; [done|].
  destruct (balanceTeams_keeps_members 5 _ _ _ _ Hrun)
    as (Hperm & _ & _ & Hbal & _).
  - apply (bool_decide_unpack _). by vm_compute.
  - intros team s pl Hin Hs Hp. simpl in Hin.
    unfold PlayerManager.getPlayer, Sample.registryOne in Hp.
    assert (s = "s1") as ->.
    { destruct (decide (s = "s1")) as [|Hne]; [done|].
      by rewrite lookup_singleton_ne in Hp. }
    repeat (apply elem_of_cons in Hin as [->|Hin];
            [simpl in Hs;
             repeat (apply elem_of_cons in Hs as [[=]|Hs]);
             by apply elem_of_nil in Hs|]).
    by apply elem_of_nil in Hin.
  - done.
Defined.
End TeamsMore.

Section ReassignMore.
Import TeamManager.



End ReassignMore.

(** ** Socket handlers *)

Section Handlers.
Import SocketHandlers.

Lemma State_eta (st : State) : mkState (rooms st) (players st) = st.
Proof. by destruct st. Qed.

Lemma unlock_lock_unlocked (room : Room.t) :
  Room.turnLocked room = false →
  TurnManager.unlockTurn (TurnManager.lockTurn room) = room.
Proof. destruct room. simpl. by intros ->. Qed.

(** A make-move request never changes the server state: it is refused with
    the room or turn verdict, or it is accepted and the lock it takes is
    released again before the handler ends.  It is accepted exactly when the
    room exists and [validateTurn] accepts the connection. *)
Theorem onMakeMove_changes_nothing (st : State) (socketId roomId : string) :
  fst (onMakeMove st socketId roomId) = st
  ∧ (snd (onMakeMove st socketId roomId) = ReplyOk ↔
     ∃ room teamId,
       rooms st !! roomId = Some room
       ∧ TurnManager.validateTurn (players st) room socketId
         = TurnManager.Valid teamId)
  ∧ (rooms st !! roomId = None →
     snd (onMakeMove st socketId roomId) = ReplyFail "Room not found")
  ∧ (∀ room message,
       rooms st !! roomId = Some room →
       TurnManager.validateTurn (players st) room socketId
       = TurnManager.Invalid message →
       snd (onMakeMove st socketId roomId) = ReplyFail message).
Proof.
  unfold onMakeMove, RoomManager.getRoom.
  destruct (rooms st !! roomId) as [room|] eqn:Hroom.
  2:{ split; [done|]. split; [|done]. split; [done|]. by intros (? & ? & ? & _). }
  destruct (TurnManager.validateTurn (players st) room socketId)
    as [teamId|message] eqn:Hv.
  - pose proof Hv as (_ & Hl & _)%validateTurn_Valid_inv.
    cbn [fst snd]. rewrite (unlock_lock_unlocked room Hl).
    rewrite insert_id by done. rewrite State_eta.
    split; [done|]. split; [|split; [done|]].
    + split; [eauto|done].
    + intros ? ? [= <-]. congruence.
  - cbn [fst snd]. split; [done|]. split; [|split; [done|]].
    + split; [done|]. intros (? & ? & [= <-] & ?). congruence.
    + intros ? ? [= <-]. congruence.
Qed.

(** An end-turn request of a connection whose turn it is always advances:
    it cannot run into the failure of [advanceTurn].  The room is stored
    with the counter one higher and unlocked, the reply carries the turn
    information of the next team, [teams[(k + 1) mod T]], and the registry
    is untouched.  A request that [validateTurn] rejects changes nothing and
    is answered with the verdict. *)
Theorem onEndTurn_advances (st : State) (socketId roomId : string)
    (room : Room.t) :
  rooms st !! roomId = Some room →
  (∀ message,
     TurnManager.validateTurn (players st) room socketId
     = TurnManager.Invalid message →
     onEndTurn st socketId roomId = (st, ReplyFail message))
  ∧ (∀ teamId,
       TurnManager.validateTurn (players st) room socketId
       = TurnManager.Valid teamId →
       ∃ nextTeam,
         let room' :=
           Room.with_turnLocked false
             (Room.with_currentTurn (S (Room.currentTurn room)) room) in
         Room.teams room
           !! (S (Room.currentTurn room) mod length (Room.teams room))
         = Some nextTeam
         ∧ onEndTurn st socketId roomId
           = (mkState (<[roomId := room']> (rooms st)) (players st),
              ReplyTurnInfo
                (TurnManager.mkTurnInfo (S (Room.currentTurn room))
                   (Some (Team.id nextTeam)) (Some (Team.name nextTeam))
                   false (length (Room.teams room))))).
Proof.
  intros Hroom. unfold onEndTurn, RoomManager.getRoom. rewrite Hroom.
  split.
  - by intros message ->.
  - intros teamId Hv. rewrite Hv.
    apply validateTurn_Valid_inv in Hv as (Hs & _ & cur & _ & Hcur & _).
    pose proof (getCurrentTeam_Some_teams _ _ Hcur) as Hne.
    destruct (advanceTurn_started room Hs Hne) as (nextTeam & Hnext & ->).
    exists nextTeam. split; [done|].
    unfold TurnManager.getTurnInfo.
    rewrite getCurrentTeam_lookup by done. simpl. by rewrite Hnext.
Qed.

Lemma onEndTurn_advances_witness :
  ∃ nextTeam,
    Room.teams Sample.roomTwoTeams !! (6 mod 2) = Some nextTeam
    ∧ snd (onEndTurn
             (mkState Sample.roomsThree Sample.registryTwoTeams) "s2" "ABC123")
      = ReplyTurnInfo
          (TurnManager.mkTurnInfo 6 (Some (Team.id nextTeam))
             (Some (Team.name nextTeam)) false 2).
Proof.
  destruct (onEndTurn_advances
              (mkState Sample.roomsThree Sample.registryTwoTeams)
              "s2" "ABC123" Sample.roomTwoTeams eq_refl) as [_ Hvalid].
  destruct (Hvalid 1) as (nextTeam & Hnext & Hrun); [by vm_compute|].
  exists nextTeam. split; [exact Hnext|]. by rewrite Hrun.
Defined.

Lemma removePlayerFromRoom_not_member (rooms : Rooms)
    (roomId socketId : string) (room room' : Room.t) :
  rooms !! roomId = Some room →
  JsMap.wf (Room.players room) →
  fst (RoomManager.removePlayerFromRoom rooms roomId socketId) !! roomId
  = Some room' →
  JsMap.get socketId (Room.players room') = None.
Proof.
  intros Hroom Hwf.
  assert (Hgone : JsMap.get socketId
                    (JsMap.delete socketId (Room.players room)) = None).
  { apply JsMap_get_None. rewrite JsMap_keys_delete by done.
    intros [? _]%list_elem_of_filter. done. }
  unfold RoomManager.removePlayerFromRoom, RoomManager.getRoom.
  rewrite Hroom.
  cbn [Room.players Room.with_teams Room.with_players Room.hostSocketId].
  case_bool_decide as Hsize.
  { cbn [fst]. unfold RoomManager.deleteRoom. by rewrite lookup_delete_eq. }
  destruct (bool_decide (Room.hostSocketId room = socketId) && _).
  - destruct (JsMap.values _ !! 0); cbn [fst];
      rewrite lookup_insert_eq; by intros [= <-].
  - cbn [fst]. rewrite lookup_insert_eq. by intros [= <-].
Qed.


(** A disconnect always completes and forgets the connection: afterwards
    the connection id resolves to nothing, the other registry entries are as
    before, and the room that the record named, when it is still stored, no
    longer has the connection among its members.  Without a record, or with
    a record that names no room, the store is untouched. *)
Theorem onDisconnect_cleans_up (st : State) (socketId : string) :
  snd (onDisconnect st socketId) = Normal ()
  ∧ PlayerManager.getPlayer (players (fst (onDisconnect st socketId)))
      socketId = None
  ∧ (∀ other, other ≠ socketId →
       PlayerManager.getPlayer (players (fst (onDisconnect st socketId)))
         other
       = PlayerManager.getPlayer (players st) other)
  ∧ (∀ player roomId room room',
       PlayerManager.getPlayer (players st) socketId = Some player →
       Player.roomId player = Some roomId →
       roomId ≠ "" →
       rooms st !! roomId = Some room →
       JsMap.wf (Room.players room) →
       rooms (fst (onDisconnect st socketId)) !! roomId = Some room' →
       JsMap.get socketId (Room.players room') = None)
  ∧ ((∀ player, PlayerManager.getPlayer (players st) socketId = Some player →
                Player.roomId player = None) →
     rooms (fst (onDisconnect st socketId)) = rooms st).
Proof.
  unfold onDisconnect.
  assert (Hgone : PlayerManager.getPlayer
                    (PlayerManager.removePlayer (players st) socketId)
                    socketId = None).
  { unfold PlayerManager.removePlayer, PlayerManager.getPlayer.
    destruct (players st !! socketId) eqn:Hp0; [apply lookup_delete_eq|done]. }
  assert (Hothers : ∀ other, other ≠ socketId →
            PlayerManager.getPlayer
              (PlayerManager.removePlayer (players st) socketId) other
            = PlayerManager.getPlayer (players st) other).
  { intros other Hne.
    unfold PlayerManager.removePlayer, PlayerManager.getPlayer.
    destruct (players st !! socketId); [by apply lookup_delete_ne|done]. }
  destruct (PlayerManager.getPlayer (players st) socketId)
    as [player|] eqn:Hp.
  2:{ cbn [fst snd rooms players]. repeat split; try done. }
  destruct (Player.roomId player) as [roomId|] eqn:Hr.
  2:{ cbn [fst snd rooms players].
      split; [done|]. split; [done|]. split; [done|]. split; [|done].
      intros p0 r0 room room' [= <-] Hr0. congruence. }
  case_decide as Hempty.
  { cbn [fst snd rooms players].
    split; [done|]. split; [done|]. split; [done|]. split; [|done].
    intros p0 r0 room room' [= <-] Hr0 Hne. congruence. }
  destruct (removePlayerFromRoom_returns (rooms st) roomId socketId)
    as [result Hres].
  destruct (RoomManager.removePlayerFromRoom (rooms st) roomId socketId)
    as [rooms' c] eqn:Hrun.
  simpl in Hres. subst c. cbn [fst snd rooms players].
  split; [done|]. split; [done|]. split; [done|]. split.
  - intros p0 r0 room room' [= <-] Hr0 _ Hroom Hwf Hroom'.
    assert (r0 = roomId) as -> by congruence.
    apply (removePlayerFromRoom_not_member (rooms st) roomId socketId
             room room' Hroom Hwf). by rewrite Hrun.
  - intros Hnone. specialize (Hnone player eq_refl). congruence.
Qed.
End Handlers.

Section StartGame.
Import SocketHandlers TeamManager.




(** A start-game request for zero teams is answered with a failure after
    the room has been marked as started: the host of a room with at least
    two members gets "Failed to start game", yet the room is left started,
    without teams and without a current team, with the registry untouched;
    a further start-game request is then refused because the game has
    already started. *)
Theorem onStartGame_zero_teams (rnd : nat → nat) (fuel fuel' : nat)
    (st : State) (socketId roomId : string) (room : Room.t)
    (again : option nat) :
  rooms st !! roomId = Some room →
  Room.hostSocketId room = socketId →
  Room.gameStarted room = false →
  2 ≤ JsMap.size (Room.players room) →
  let room' := Room.with_teams [] (Room.with_gameStarted true room) in
  let st' := mkState (<[roomId := room']> (rooms st)) (players st) in
  onStartGame rnd fuel st socketId roomId (Some 0)
  = Some (st', ReplyFail "Failed to start game")
  ∧ TurnManager.getCurrentTeam room' = None
  ∧ onStartGame rnd fuel' st' socketId roomId again
    = Some (st', ReplyFail "Game already started").
Proof.
  intros Hroom Hhost Hs Hsize room' st'. split; [|split; [done|]].
  - unfold onStartGame, RoomManager.getRoom, RoomManager.startGame.
    rewrite Hroom. rewrite decide_False by (by intros ?).
    unfold RoomManager.getRoom. rewrite Hroom, Hs.
    rewrite decide_False by (unfold CONFIG.MIN_PLAYERS_TO_START; lia).
    change (createTeams (default CONFIG.DEFAULT_NUM_TEAMS (Some 0)))
      with (@nil Team.t).
    cbn [Room.players Room.with_gameStarted].
    pose proof (assignPlayersToTeams_no_teams rnd (Room.players room)
                  (players st)) as Hthrow.
    rewrite decide_False in Hthrow by lia. rewrite Hthrow.
    by rewrite insert_insert_eq.
  - unfold onStartGame, RoomManager.getRoom, RoomManager.startGame.
    cbn [rooms st']. rewrite lookup_insert_eq.
    rewrite decide_False by (by intros ?).
    unfold RoomManager.getRoom. rewrite lookup_insert_eq. done.
Qed.

Lemma onStartGame_zero_teams_witness :
  let room :=
    Room.mk "ABC123" "s1" (Sample.members ["s1"; "s2"]) [] 0 false false 0 in
  let st := mkState {[ "ABC123" := room ]} Sample.registryTwoTeams in
  ∃ st',
    onStartGame (λ i, i) 0 st "s1" "ABC123" (Some 0)
    = Some (st', ReplyFail "Failed to start game")
    ∧ (Room.gameStarted <$> rooms st' !! "ABC123") = Some true.
Proof.
  intros room st.
  destruct (onStartGame_zero_teams (λ i, i) 0 0 st "s1" "ABC123" room None)
    as (Hrun & _ & _); [reflexivity|reflexivity|reflexivity|simpl; lia|].
  eexists. split; [exact Hrun|]. cbn [rooms]. by rewrite lookup_insert_eq.
Defined.
End StartGame.
